(** * ComputeLendingFHE: batch aggregation and verified decryption

    A shallow embedding of [contracts/computeLendingFHE.sol] and the
    properties of its batch / decryption state machine.

    Storage is a record with one field per state variable; Solidity
    mappings are finite maps read with the default value of the mapped
    type.  A transaction is a computation in a small state-and-error monad
    that also records, in order, every storage write, library call and
    event it performs, so that "before" and "without doing any work" can be
    stated.  A reverted transaction leaves the storage as it was. *)

From Stdlib Require Import Ascii String.
From Stdlib Require Import ZArith List Lia Bool.
From stdpp Require Import gmap list.

Open Scope Z_scope.

(** ** Machine integers *)

Definition MAX_UINT256 : Z := 2 ^ 256 - 1.

(** Plaintexts of an [euint32] are 32-bit. *)
Definition MOD32 : Z := 2 ^ 32.

(** ** Errors, events, records *)

Inductive Error :=
| NotOwner
| NotProvider
| Paused
| CooldownActive
| BatchClosedOrNonExistent
| ReplayDetected
| StateMismatch
| InvalidBatchId
| ArithmeticOverflow      (* Panic(0x11) of checked arithmetic *)
| InvalidSignatures       (* revert inside FHE.checkSignatures *)
| AbiDecodeFailure.       (* abi.decode on too short a payload *)

Inductive Event :=
| OwnershipTransferred (previousOwner newOwner : Z)
| ProviderAdded (provider : Z)
| ProviderRemoved (provider : Z)
| PauseToggled (flag : bool)
| CooldownSecondsSet (oldCooldown newCooldown : Z)
| BatchOpened (batch : Z)
| BatchClosed (batch : Z)
| ComputeResourceSubmitted (provider batch encryptedComputeUnits encryptedLendAmount : Z)
| DecryptionRequested (requestId batch hash : Z)
| DecryptionCompleted (requestId batch totalComputeUnits totalLendAmount : Z).

Record DecryptionContext := mkContext {
  batchId : Z;
  stateHash : Z;
  processed : bool
}.

(** What an unwritten slot of [decryptionContexts] reads as. *)
Definition emptyContext : DecryptionContext := mkContext 0 0 false.

(** ** Storage *)

Record State := mkState {
  owner : Z;
  isProvider : gmap Z bool;
  paused : bool;
  cooldownSeconds : Z;
  lastSubmissionTime : gmap Z Z;
  lastDecryptionRequestTime : gmap Z Z;
  currentBatchId : Z;
  isBatchOpen : gmap Z bool;
  batchTotalEncryptedComputeUnits : gmap Z Z;
  batchTotalEncryptedLendAmounts : gmap Z Z;
  decryptionContexts : gmap Z DecryptionContext;
  (* the request counter the FHE library keeps for this contract *)
  counterRequest : Z;
  (* the log of events emitted so far *)
  events : list Event
}.

(** Mapping reads: an absent key reads as the zero of the value type. *)
Definition rdZ (m : gmap Z Z) (k : Z) : Z := default 0 (m !! k).
Definition rdB (m : gmap Z bool) (k : Z) : bool := default false (m !! k).
Definition rdC (m : gmap Z DecryptionContext) (k : Z) : DecryptionContext :=
  default emptyContext (m !! k).

(** ** Storage writes *)

Inductive Write :=
| W_owner (a : Z)
| W_isProvider (a : Z) (v : bool)
| W_paused (v : bool)
| W_cooldownSeconds (v : Z)
| W_lastSubmissionTime (a v : Z)
| W_lastDecryptionRequestTime (a v : Z)
| W_currentBatchId (v : Z)
| W_isBatchOpen (b : Z) (v : bool)
| W_batchTotalEncryptedComputeUnits (b v : Z)
| W_batchTotalEncryptedLendAmounts (b v : Z)
| W_decryptionContexts (id : Z) (c : DecryptionContext)
| W_counterRequest (v : Z).

Definition apply_write (w : Write) (s : State) : State :=
  match s with
  | mkState o ip p cd ls ld cb ib cu la dc cr ev =>
    match w with
    | W_owner a => mkState a ip p cd ls ld cb ib cu la dc cr ev
    | W_isProvider a v => mkState o (<[a:=v]> ip) p cd ls ld cb ib cu la dc cr ev
    | W_paused v => mkState o ip v cd ls ld cb ib cu la dc cr ev
    | W_cooldownSeconds v => mkState o ip p v ls ld cb ib cu la dc cr ev
    | W_lastSubmissionTime a v => mkState o ip p cd (<[a:=v]> ls) ld cb ib cu la dc cr ev
    | W_lastDecryptionRequestTime a v => mkState o ip p cd ls (<[a:=v]> ld) cb ib cu la dc cr ev
    | W_currentBatchId v => mkState o ip p cd ls ld v ib cu la dc cr ev
    | W_isBatchOpen b v => mkState o ip p cd ls ld cb (<[b:=v]> ib) cu la dc cr ev
    | W_batchTotalEncryptedComputeUnits b v => mkState o ip p cd ls ld cb ib (<[b:=v]> cu) la dc cr ev
    | W_batchTotalEncryptedLendAmounts b v => mkState o ip p cd ls ld cb ib cu (<[b:=v]> la) dc cr ev
    | W_decryptionContexts id c => mkState o ip p cd ls ld cb ib cu la (<[id:=c]> dc) cr ev
    | W_counterRequest v => mkState o ip p cd ls ld cb ib cu la dc v ev
    end
  end.

Definition log_event (e : Event) (s : State) : State :=
  match s with
  | mkState o ip p cd ls ld cb ib cu la dc cr ev =>
    mkState o ip p cd ls ld cb ib cu la dc cr (ev ++ [e])
  end.

(** ** The FHE library and the EVM primitives the contract calls

    [@fhevm/solidity] is not part of the repository: what the coprocessor,
    the signature check and the hash compute is left open, as the fields of
    [FHELib]. *)

(** Modelled from the spec: an encrypted value is an opaque handle, which
    the contract stores, hashes and emits as a 32-byte word. *)
Definition euint32 := Z.

Class FHELib := {
  (* FHE.add on two handles: the handle of the encrypted sum *)
  FHE_add : Z -> Z -> Z;
  (* FHE.asEuint32 applied to a stored accumulator word *)
  FHE_asEuint32 : Z -> Z;
  (* FHE.checkSignatures: true when it returns, false when it reverts *)
  FHE_checkSignatures : Z -> list Byte.byte -> list Byte.byte -> bool;
  (* keccak256, on the 32-byte words of its input *)
  keccak256 : list Z -> Z
}.

(** Modelled from the spec: the accumulators and the events hold the
    ciphertext handles themselves, so [FHE.toBytes32] gives the word of the
    handle. *)
Definition FHE_toBytes32 (e : euint32) : Z := e.

(** Modelled from the spec: [isInitialized] tells whether a handle is a
    valid encrypted value; the unset handle is the zero word, which is what
    a fresh accumulator reads as. *)
Definition FHE_isInitialized (e : euint32) : bool := negb (e =? 0).

Inductive LibCall :=
| L_asEuint32 (v : Z)
| L_add (a b : Z)
| L_keccak256 (words : list Z)
| L_requestDecryption (cts : list Z)
| L_checkSignatures (requestId : Z) (cleartexts proof : list Byte.byte).

Inductive Effect :=
| EStore (w : Write)
| ECall (c : LibCall)
| EEmit (e : Event).

(** ** The transaction monad *)

Inductive Res (A : Type) :=
| Done (a : A) (s : State) (t : list Effect)
| Reverted (e : Error) (t : list Effect).
Arguments Done {A} a s t.
Arguments Reverted {A} e t.

Definition M (A : Type) : Type := State -> list Effect -> Res A.

Definition ret {A} (a : A) : M A := fun s t => Done a s t.
Definition bind {A B} (m : M A) (k : A -> M B) : M B :=
  fun s t => match m s t with
             | Done a s' t' => k a s' t'
             | Reverted e t' => Reverted e t'
             end.
Definition revert {A} (e : Error) : M A := fun _ t => Reverted e t.
Definition get : M State := fun s t => Done s s t.
Definition store (w : Write) : M unit :=
  fun s t => Done tt (apply_write w s) (t ++ [EStore w]).
Definition emit (e : Event) : M unit :=
  fun s t => Done tt (log_event e s) (t ++ [EEmit e]).
Definition call (c : LibCall) : M unit :=
  fun s t => Done tt s (t ++ [ECall c]).

Declare Scope tx_scope.
Delimit Scope tx_scope with tx.
Notation "'do' x <- m ; k" := (bind m (fun x => k))
  (at level 10, x name, m at level 100, k at level 200) : tx_scope.
Notation "'do_' m ; k" := (bind m (fun _ => k))
  (at level 10, m at level 100, k at level 200) : tx_scope.
Open Scope tx_scope.

(** [if (c) revert e;] *)
Definition revert_if (c : bool) (e : Error) : M unit :=
  if c then revert e else ret tt.

(** The sender, the block time, and the word of memory that lies after a
    [cleartexts] shorter than 64 bytes. *)
Record Env := mkEnv {
  msg_sender : Z;
  block_timestamp : Z;
  memory_past_cleartexts : Z
}.

(** Checked addition of two [uint256]. *)
Definition checked_add (a b : Z) : M Z :=
  if MAX_UINT256 <? a + b then revert ArithmeticOverflow else ret (a + b).

(** ** ABI encoding and decoding *)

(** [abi.encode(cts, address(this))]: the offset of the array, the address,
    the array length, the elements. *)
Definition abi_encode (cts : list Z) (this : Z) : list Z :=
  [64; this; Z.of_nat (length cts)] ++ cts.

Definition be_word (bs : list Byte.byte) : Z :=
  fold_left (fun acc b => acc * 256 + Z.of_N (Byte.to_N b)) bs 0.

(** [abi.decode(cleartexts, (uint256))] *)
Definition abi_decode_uint256 (data : list Byte.byte) : option Z :=
  if (length data <? 32)%nat then None else Some (be_word (take 32 data)).

(** [mload(add(add(cleartexts, 0x20), 0x20))]: the second word of the
    payload when it has one. *)
Definition mload_second_word (env : Env) (data : list Byte.byte) : Z :=
  if (length data <? 64)%nat then memory_past_cleartexts env
  else be_word (take 32 (drop 32 data)).

(** ** The contract *)

Section Contract.

Context `{FHELib}.

(** [address(this)] *)
Variable this : Z.

(** *** Library calls, as the contract makes them *)

Definition fhe_asEuint32 (v : Z) : M euint32 :=
  do_ call (L_asEuint32 v); ret (FHE_asEuint32 v).

Definition fhe_add (a b : euint32) : M euint32 :=
  do_ call (L_add a b); ret (FHE_add a b).

(** Modelled from the spec: [FHE.requestDecryption] dispatches the handles
    to the decryption service and receives the request id that identifies
    this request.  The ids are issued in sequence, from a counter kept for
    this contract, so no id is issued twice. *)
Definition fhe_requestDecryption (cts : list Z) : M Z :=
  do s <- get;
  let requestID := counterRequest s in
  do_ call (L_requestDecryption cts);
  do_ store (W_counterRequest (requestID + 1));
  ret requestID.

Definition fhe_checkSignatures (requestId : Z) (cleartexts proof : list Byte.byte) : M unit :=
  do_ call (L_checkSignatures requestId cleartexts proof);
  revert_if (negb (FHE_checkSignatures requestId cleartexts proof)) InvalidSignatures.

(** *** Modifiers *)

Definition onlyOwner (env : Env) : M unit :=
  do s <- get;
  revert_if (negb (msg_sender env =? owner s)) NotOwner.

Definition onlyProvider (env : Env) : M unit :=
  do s <- get;
  revert_if (negb (rdB (isProvider s) (msg_sender env))) NotProvider.

Definition whenNotPaused : M unit :=
  do s <- get;
  revert_if (paused s) Paused.

(** *** Constructor and administration *)

Definition constructor (deployer : Z) : State :=
  {| owner := deployer;
     isProvider := ∅;
     paused := false;
     cooldownSeconds := 0;
     lastSubmissionTime := ∅;
     lastDecryptionRequestTime := ∅;
     currentBatchId := 0;
     isBatchOpen := ∅;
     batchTotalEncryptedComputeUnits := ∅;
     batchTotalEncryptedLendAmounts := ∅;
     decryptionContexts := ∅;
     counterRequest := 0;
     events := [OwnershipTransferred 0 deployer] |}.

Definition transferOwnership (env : Env) (newOwner : Z) : M unit :=
  do_ onlyOwner env;
  do s <- get;
  let previousOwner := owner s in
  do_ store (W_owner newOwner);
  emit (OwnershipTransferred previousOwner newOwner).

Definition addProvider (env : Env) (provider : Z) : M unit :=
  do_ onlyOwner env;
  do s <- get;
  if negb (rdB (isProvider s) provider) then
    do_ store (W_isProvider provider true);
    emit (ProviderAdded provider)
  else ret tt.

Definition removeProvider (env : Env) (provider : Z) : M unit :=
  do_ onlyOwner env;
  do s <- get;
  if rdB (isProvider s) provider then
    do_ store (W_isProvider provider false);
    emit (ProviderRemoved provider)
  else ret tt.

Definition setPaused (env : Env) (_paused : bool) : M unit :=
  do_ onlyOwner env;
  do_ store (W_paused _paused);
  emit (PauseToggled _paused).

Definition setCooldownSeconds (env : Env) (newCooldownSeconds : Z) : M unit :=
  do_ onlyOwner env;
  do s <- get;
  let oldCooldown := cooldownSeconds s in
  do_ store (W_cooldownSeconds newCooldownSeconds);
  emit (CooldownSecondsSet oldCooldown newCooldownSeconds).

(** *** Batches *)

Definition openBatch (env : Env) : M unit :=
  do_ onlyOwner env;
  do_ whenNotPaused;
  do s <- get;
  do next <- checked_add (currentBatchId s) 1;
  do_ store (W_currentBatchId next);
  do s <- get;
  do_ store (W_isBatchOpen (currentBatchId s) true);
  do s <- get;
  emit (BatchOpened (currentBatchId s)).

Definition closeBatch (env : Env) (batchId : Z) : M unit :=
  do_ onlyOwner env;
  do s <- get;
  do_ revert_if (negb (rdB (isBatchOpen s) batchId)) BatchClosedOrNonExistent;
  do_ store (W_isBatchOpen batchId false);
  emit (BatchClosed batchId).

Definition _hashCiphertexts (cts : list Z) : M Z :=
  do_ call (L_keccak256 (abi_encode cts this));
  ret (keccak256 (abi_encode cts this)).

Definition _initIfNeeded (val : euint32) : M unit :=
  if negb (FHE_isInitialized val) then
    do _ <- fhe_asEuint32 0; ret tt
  else ret tt.

Definition submitEncryptedComputeResource (env : Env)
    (batchId : Z) (encryptedComputeUnits encryptedLendAmount : euint32) : M unit :=
  do_ onlyProvider env;
  do_ whenNotPaused;
  do s <- get;
  do ready <- checked_add (rdZ (lastSubmissionTime s) (msg_sender env)) (cooldownSeconds s);
  do_ revert_if (block_timestamp env <? ready) CooldownActive;
  do_ revert_if (negb (rdB (isBatchOpen s) batchId)) BatchClosedOrNonExistent;
  do_ store (W_lastSubmissionTime (msg_sender env) (block_timestamp env));
  do_ _initIfNeeded encryptedComputeUnits;
  do_ _initIfNeeded encryptedLendAmount;
  do s <- get;
  do units <- fhe_asEuint32 (rdZ (batchTotalEncryptedComputeUnits s) batchId);
  do unitsSum <- fhe_add encryptedComputeUnits units;
  do_ store (W_batchTotalEncryptedComputeUnits batchId (FHE_toBytes32 unitsSum));
  do s <- get;
  do lend <- fhe_asEuint32 (rdZ (batchTotalEncryptedLendAmounts s) batchId);
  do lendSum <- fhe_add encryptedLendAmount lend;
  do_ store (W_batchTotalEncryptedLendAmounts batchId (FHE_toBytes32 lendSum));
  emit (ComputeResourceSubmitted (msg_sender env) batchId
          (FHE_toBytes32 encryptedComputeUnits) (FHE_toBytes32 encryptedLendAmount)).

(** *** Decryption *)

Definition requestBatchDecryption (env : Env) (batchId : Z) : M unit :=
  do_ onlyOwner env;
  do_ whenNotPaused;
  do s <- get;
  do ready <- checked_add (rdZ (lastDecryptionRequestTime s) (msg_sender env)) (cooldownSeconds s);
  do_ revert_if (block_timestamp env <? ready) CooldownActive;
  do_ revert_if (rdB (isBatchOpen s) batchId) BatchClosedOrNonExistent;
  do_ store (W_lastDecryptionRequestTime (msg_sender env) (block_timestamp env));
  do s <- get;
  let cts := [rdZ (batchTotalEncryptedComputeUnits s) batchId;
              rdZ (batchTotalEncryptedLendAmounts s) batchId] in
  do stateHash <- _hashCiphertexts cts;
  do requestId <- fhe_requestDecryption cts;
  do_ store (W_decryptionContexts requestId (mkContext batchId stateHash false));
  emit (DecryptionRequested requestId batchId stateHash).

Definition myCallback (env : Env) (requestId : Z) (cleartexts proof : list Byte.byte) : M unit :=
  do s <- get;
  do_ revert_if (processed (rdC (decryptionContexts s) requestId)) ReplayDetected;
  let b := batchId (rdC (decryptionContexts s) requestId) in
  do_ revert_if (negb (rdB (isBatchOpen s) b)
                 && (rdZ (batchTotalEncryptedComputeUnits s) b =? 0)) InvalidBatchId;
  let cts := [rdZ (batchTotalEncryptedComputeUnits s) b;
              rdZ (batchTotalEncryptedLendAmounts s) b] in
  do currentHash <- _hashCiphertexts cts;
  do_ revert_if (negb (currentHash =? stateHash (rdC (decryptionContexts s) requestId)))
        StateMismatch;
  do_ fhe_checkSignatures requestId cleartexts proof;
  match abi_decode_uint256 cleartexts with
  | None => revert AbiDecodeFailure
  | Some totalComputeUnits =>
    let totalLendAmount := mload_second_word env cleartexts in
    do s <- get;
    let ctx := rdC (decryptionContexts s) requestId in
    do_ store (W_decryptionContexts requestId (mkContext (batchId ctx) (stateHash ctx) true));
    emit (DecryptionCompleted requestId b totalComputeUnits totalLendAmount)
  end.

(** ** Transactions *)

Inductive Call :=
| TransferOwnership (newOwner : Z)
| AddProvider (provider : Z)
| RemoveProvider (provider : Z)
| SetPaused (flag : bool)
| SetCooldownSeconds (newCooldownSeconds : Z)
| OpenBatch
| CloseBatch (batch : Z)
| SubmitEncryptedComputeResource (batch encryptedComputeUnits encryptedLendAmount : Z)
| RequestBatchDecryption (batch : Z)
| MyCallback (requestId : Z) (cleartexts proof : list Byte.byte).

Definition dispatch (env : Env) (c : Call) : M unit :=
  match c with
  | TransferOwnership a => transferOwnership env a
  | AddProvider a => addProvider env a
  | RemoveProvider a => removeProvider env a
  | SetPaused v => setPaused env v
  | SetCooldownSeconds v => setCooldownSeconds env v
  | OpenBatch => openBatch env
  | CloseBatch b => closeBatch env b
  | SubmitEncryptedComputeResource b u l => submitEncryptedComputeResource env b u l
  | RequestBatchDecryption b => requestBatchDecryption env b
  | MyCallback id c p => myCallback env id c p
  end.

(** What a transaction does: it succeeds with a new storage, or fails with
    an error; either way with the effects performed up to that point. *)
Inductive Outcome :=
| Success (s' : State) (t : list Effect)
| Failure (e : Error) (t : list Effect).

Definition transact (env : Env) (c : Call) (s : State) : Outcome :=
  match dispatch env c s [] with
  | Done _ s' t => Success s' t
  | Reverted e t => Failure e t
  end.

(** The storage after a transaction: a revert undoes everything. *)
Definition step (s : State) (ec : Env * Call) : State :=
  match transact ec.1 ec.2 s with
  | Success s' _ => s'
  | Failure _ _ => s
  end.

Definition succeeds (s : State) (ec : Env * Call) : bool :=
  match transact ec.1 ec.2 s with
  | Success _ _ => true
  | Failure _ _ => false
  end.

Definition exec (txs : list (Env * Call)) (s : State) : State :=
  fold_left step txs s.

(** States the contract can be in: deployed by a non-null sender, then any
    transactions. *)
Inductive reachable : State -> Prop :=
| reachable_constructor deployer :
    deployer <> 0 -> reachable (constructor deployer)
| reachable_step s ec :
    reachable s -> reachable (step s ec).

End Contract.

(** The call [_initIfNeeded] makes for an unset handle. *)
Definition init_calls (val : Z) : list Effect :=
  if FHE_isInitialized val then [] else [ECall (L_asEuint32 0)].

(** ** What the properties speak about *)

Section Specification.

Context `{FHELib}.
Variable this : Z.

(** The effects a transaction performed, whether it succeeded or not. *)
Definition effects (o : Outcome) : list Effect :=
  match o with
  | Success _ t => t
  | Failure _ t => t
  end.

(** Batch ids are handed out in order: an open batch has an id in
    [1..currentBatchId], and an id that was never handed out has no
    accumulators.  Request ids likewise: an id the library has not issued
    has no stored context. *)
Record invariant (s : State) : Prop := {
  inv_current : 0 <= currentBatchId s;
  inv_open : forall b, rdB (isBatchOpen s) b = true -> 1 <= b <= currentBatchId s;
  inv_fresh : forall b, b <= 0 \/ currentBatchId s < b ->
     rdZ (batchTotalEncryptedComputeUnits s) b = 0 /\
     rdZ (batchTotalEncryptedLendAmounts s) b = 0;
  inv_counter : 0 <= counterRequest s;
  inv_unissued : forall id, id < 0 \/ counterRequest s <= id ->
     decryptionContexts s !! id = None
}.

(** The commitment of the accumulator pair of a batch, as
    [requestBatchDecryption] and [myCallback] compute it. *)
Definition commitment (s : State) (b : Z) : Z :=
  keccak256 (abi_encode [rdZ (batchTotalEncryptedComputeUnits s) b;
                         rdZ (batchTotalEncryptedLendAmounts s) b] this).

(** A stored context of a batch without data commits to the empty pair. *)
Record commitments_ok (s : State) : Prop := {
  ok_pair : forall b, rdZ (batchTotalEncryptedComputeUnits s) b = 0 ->
     rdZ (batchTotalEncryptedLendAmounts s) b = 0;
  ok_commit : forall id ctx, decryptionContexts s !! id = Some ctx ->
     rdZ (batchTotalEncryptedComputeUnits s) (batchId ctx) = 0 ->
     stateHash ctx = keccak256 (abi_encode [0; 0] this)
}.

(** The handle pairs of the submissions to batch [b] that succeeded in a
    run of transactions from [s], in order. *)
Fixpoint submissions (b : Z) (txs : list (Env * Call)) (s : State) : list (Z * Z) :=
  match txs with
  | [] => []
  | ec :: rest =>
    match ec.2 with
    | SubmitEncryptedComputeResource b' u l =>
      if succeeds this s ec && (b' =? b) then (u, l) :: submissions b rest (step this s ec)
      else submissions b rest (step this s ec)
    | _ => submissions b rest (step this s ec)
    end
  end.

(** How many callbacks for [id] succeeded in a run from [s]. *)
Fixpoint resolutions (id : Z) (txs : list (Env * Call)) (s : State) : nat :=
  match txs with
  | [] => O
  | ec :: rest =>
    match ec.2 with
    | MyCallback id' _ _ =>
      if succeeds this s ec && (id' =? id) then S (resolutions id rest (step this s ec))
      else resolutions id rest (step this s ec)
    | _ => resolutions id rest (step this s ec)
    end
  end.

End Specification.

Definition sumZ (l : list Z) : Z := foldr Z.add 0 l.

(** The sums of the plaintexts of a list of submitted handle pairs. *)
Definition units_sum (decrypt : Z -> Z) (subs : list (Z * Z)) : Z :=
  sumZ (map (fun p => decrypt p.1) subs).
Definition lends_sum (decrypt : Z -> Z) (subs : list (Z * Z)) : Z :=
  sumZ (map (fun p => decrypt p.2) subs).

(** The accumulators of batch [b] after a run from [s] decrypt to exactly
    the sums of what was submitted to it. *)
Definition exact_sums `{FHELib} (this : Z) (decrypt : Z -> Z)
    (b : Z) (txs : list (Env * Call)) (s : State) : Prop :=
  decrypt (rdZ (batchTotalEncryptedComputeUnits (exec this txs s)) b)
    = units_sum decrypt (submissions this b txs s) /\
  decrypt (rdZ (batchTotalEncryptedLendAmounts (exec this txs s)) b)
    = lends_sum decrypt (submissions this b txs s).

(** What the ciphertext handles mean.  [decrypt] gives the plaintext of a
    handle, a 32-bit number; [FHE.add] adds plaintexts the way [euint32]
    does, modulo [2^32]; [FHE.asEuint32] encrypts the number it is given,
    which is how the contract itself uses it in [_initIfNeeded], where
    [FHE.asEuint32(0)] makes an encrypted zero: the plaintext of its result
    is its argument, cut to 32 bits. *)
Record FHESemantics `{FHELib} (decrypt : Z -> Z) : Prop := {
  decrypt_range : forall h, 0 <= decrypt h < MOD32;
  decrypt_asEuint32 : forall v, decrypt (FHE_asEuint32 v) = v mod MOD32;
  decrypt_add : forall a b, decrypt (FHE_add a b) = (decrypt a + decrypt b) mod MOD32
}.

(** The handle of a computed ciphertext is never the unset handle.  The
    contract relies on it: [myCallback] takes a zero compute-unit
    accumulator to mean a batch without data. *)
Definition nonzero_handles `{FHELib} : Prop :=
  forall a b, FHE_add a b <> 0.

(** ** A small model of the library, to run the contract on

    A nonzero handle [h] stands for the plaintext [(h - 1) mod 2^32]. *)
Module Toy.

Definition decrypt (h : Z) : Z :=
  if h =? 0 then 0 else (h - 1) mod MOD32.

Definition encrypt (v : Z) : Z := v mod MOD32 + 1.

Definition hash (words : list Z) : Z :=
  fold_left (fun acc w => acc * (MAX_UINT256 + 1) + w + 1) words 0.

Definition lib : FHELib := {|
  FHE_add := fun a b => encrypt (decrypt a + decrypt b);
  FHE_asEuint32 := fun h => h;
  FHE_checkSignatures := fun _ _ proof =>
    match proof with [Byte.x01] => true | _ => false end;
  keccak256 := hash
|}.

(** The same library with [FHE.asEuint32] encrypting its argument, as
    [FHESemantics] has it. *)
Definition encrypting_lib : FHELib := {|
  FHE_add := fun a b => encrypt (decrypt a + decrypt b);
  FHE_asEuint32 := encrypt;
  FHE_checkSignatures := fun _ _ proof =>
    match proof with [Byte.x01] => true | _ => false end;
  keccak256 := hash
|}.

(** The address of the deployed contract. *)
Definition this : Z := 4096.

Definition at_time (sender time : Z) : Env := mkEnv sender time 0.

Definition run := @exec lib this.
Definition tx := @transact lib this.
Definition after := @step lib this.
Definition submitted := @submissions lib this.
Definition ok := @succeeds lib this.
Definition can_reach := @reachable lib this.

(** Thirty-two bytes holding the number 17, then thirty-two holding 8. *)
Definition payload : list Byte.byte :=
  replicate 31 Byte.x00 ++ [Byte.x11] ++ replicate 31 Byte.x00 ++ [Byte.x08].

Definition good_proof : list Byte.byte := [Byte.x01].

(** The scenario of the specification: two providers submit (10, 5) and
    (7, 3) to batch 1, which is then closed and requested. *)
Definition scenario : list (Env * Call) :=
  [ (at_time 1 10, AddProvider 2);
    (at_time 1 10, AddProvider 3);
    (at_time 1 11, OpenBatch);
    (at_time 2 12, SubmitEncryptedComputeResource 1 (encrypt 10) (encrypt 5));
    (at_time 3 13, SubmitEncryptedComputeResource 1 (encrypt 7) (encrypt 3));
    (at_time 1 14, CloseBatch 1);
    (at_time 1 15, RequestBatchDecryption 1) ].

(** The scenario, then a pause. *)
Definition paused_scenario : list (Env * Call) :=
  scenario ++ [ (at_time 1 16, SetPaused true) ].

(** A request for batch 1 before it exists, then the batch is opened and
    receives a submission. *)
Definition early_request : list (Env * Call) :=
  [ (at_time 1 10, RequestBatchDecryption 1);
    (at_time 1 11, AddProvider 2);
    (at_time 1 12, OpenBatch);
    (at_time 2 13, SubmitEncryptedComputeResource 1 (encrypt 10) (encrypt 5)) ].

(** A request for batch 1 before it exists, resolved while the batch is
    open and empty; then the batch is closed. *)
Definition resolved_then_closed : list (Env * Call) :=
  [ (at_time 1 10, RequestBatchDecryption 1);
    (at_time 1 11, OpenBatch);
    (at_time 9 12, MyCallback 0 payload good_proof);
    (at_time 1 13, CloseBatch 1) ].

(** A batch closed without submissions, and a request for it. *)
Definition empty_batch_request : list (Env * Call) :=
  [ (at_time 1 10, OpenBatch);
    (at_time 1 11, CloseBatch 1);
    (at_time 1 12, RequestBatchDecryption 1) ].

(** The owner, a provider too, submits at time 1002 under a cooldown of
    100 seconds. *)
Definition cooling_down : list (Env * Call) :=
  [ (at_time 1 1000, AddProvider 1);
    (at_time 1 1000, SetCooldownSeconds 100);
    (at_time 1 1001, OpenBatch);
    (at_time 1 1002, SubmitEncryptedComputeResource 1 (encrypt 10) (encrypt 5)) ].

(** A provider submits at time 12, then the owner sets the cooldown to the
    largest [uint256]. *)
Definition huge_cooldown : list (Env * Call) :=
  [ (at_time 1 10, AddProvider 2);
    (at_time 1 11, OpenBatch);
    (at_time 2 12, SubmitEncryptedComputeResource 1 (encrypt 10) (encrypt 5));
    (at_time 1 13, SetCooldownSeconds MAX_UINT256) ].

End Toy.

(** ** What the further properties speak about *)

(** Calls guarded by [onlyOwner]. *)
Definition is_admin (c : Call) : bool :=
  match c with
  | SubmitEncryptedComputeResource _ _ _ | MyCallback _ _ _ => false
  | _ => true
  end.

(** How many [openBatch] calls succeeded in a run from [s]. *)
Fixpoint opened `{FHELib} (this : Z) (txs : list (Env * Call)) (s : State) : nat :=
  match txs with
  | [] => O
  | ec :: rest =>
    match ec.2 with
    | OpenBatch =>
      if succeeds this s ec then S (opened this rest (step this s ec))
      else opened this rest (step this s ec)
    | _ => opened this rest (step this s ec)
    end
  end.

Definition is_completion (id : Z) (e : Event) : bool :=
  match e with
  | DecryptionCompleted id' _ _ _ => id' =? id
  | _ => false
  end.

(** How many [DecryptionCompleted] events for [id] a log holds. *)
Fixpoint completions (id : Z) (evs : list Event) : nat :=
  match evs with
  | [] => O
  | e :: rest => ((if is_completion id e then 1 else 0) + completions id rest)%nat
  end.

(** How many [setCooldownSeconds] calls succeeded in a run from [s]. *)
Fixpoint cooldown_sets `{FHELib} (this : Z) (txs : list (Env * Call)) (s : State) : nat :=
  match txs with
  | [] => O
  | ec :: rest =>
    match ec.2 with
    | SetCooldownSeconds _ =>
      if succeeds this s ec then S (cooldown_sets this rest (step this s ec))
      else cooldown_sets this rest (step this s ec)
    | _ => cooldown_sets this rest (step this s ec)
    end
  end.

(** The log and the contexts agree: a request has one completion event in
    the log when its context is processed and none when it is not; and a
    completion event names the batch of its context. *)
Record log_ok (s : State) : Prop := {
  log_count : forall id,
    completions id (events s)
      = if processed (rdC (decryptionContexts s) id) then 1%nat else 0%nat;
  log_batch : forall id b u l,
    In (DecryptionCompleted id b u l) (events s) ->
    batchId (rdC (decryptionContexts s) id) = b
}.

(** The handle obtained by adding the handles [hs], in order, onto an
    accumulator word, the way [submitEncryptedComputeResource] does. *)
Definition fold_handles `{FHELib} (start : Z) (hs : list Z) : Z :=
  fold_left (fun acc h => FHE_toBytes32 (FHE_add h (FHE_asEuint32 acc))) hs start.

(** ** The frontend's number codec ([frontend/web/src/App.tsx]) *)

(** The JavaScript numbers and built-ins the codec calls.  [atob] gives
    [None] where it throws. *)
Class Builtins := {
  number : Type;
  toString : number -> string;
  parseFloat : string -> number;
  btoa : string -> string;
  atob : string -> option string;
  times : number -> number -> number;
  (* the literals [1.2], [0.9] and [1.15] *)
  lit_1_2 : number;
  lit_0_9 : number;
  lit_1_15 : number
}.

(** [s.startsWith(p)] *)
Definition startsWith (s p : string) : bool := String.prefix p s.

(** [s.substring(n)] *)
Fixpoint substring_from (n : nat) (s : string) : string :=
  match n, s with
  | O, _ => s
  | S n', String _ rest => substring_from n' rest
  | S _, EmptyString => EmptyString
  end.

(** [s.split('-')[0]]: what stands before the first dash. *)
Fixpoint first_part (s : string) : string :=
  match s with
  | EmptyString => EmptyString
  | String c rest =>
    if Ascii.eqb c "-" then EmptyString else String c (first_part rest)
  end.

Fixpoint has_dash (s : string) : bool :=
  match s with
  | EmptyString => false
  | String c rest => Ascii.eqb c "-" || has_dash rest
  end.

Section Codec.

Context `{Builtins}.

(** [now] is what [Date.now()] returns. *)
Definition FHEEncryptNumber (value now : number) : string :=
  ("FHE-" ++ btoa (toString value) ++ "-" ++ toString now)%string.

Definition FHEDecryptNumber (encryptedData : string) : option number :=
  if startsWith encryptedData "FHE-" then
    let parts0 := first_part (substring_from 4 encryptedData) in
    match atob parts0 with
    | Some decoded => Some (parseFloat decoded)
    | None => None
    end
  else Some (parseFloat encryptedData).

(** The scaling [FHECompute] applies for an operation name. *)
Definition scaled (operation : string) (value : number) : number :=
  if (operation =? "scaleUp20%")%string then times value lit_1_2
  else if (operation =? "scaleDown10%")%string then times value lit_0_9
  else if (operation =? "optimizePerformance")%string then times value lit_1_15
  else value.

Definition FHECompute (encryptedData operation : string) (now : number) : option string :=
  match FHEDecryptNumber encryptedData with
  | Some value => Some (FHEEncryptNumber (scaled operation value) now)
  | None => None
  end.

End Codec.

(** The built-ins as a browser has them: numbers are IEEE 754 doubles,
    [toString] and [parseFloat] follow ECMA-262 (Number::toString with
    radix 10, and the StrDecimalLiteral grammar), [btoa] and [atob] follow
    the forgiving base64 of the WHATWG Infra standard.  Strings are strings
    of code units below 256, the ones [btoa] accepts and [atob] returns. *)
Module Browser.

(** *** Numbers *)

(** A finite number is a sign, a mantissa [m < 2^53] and an exponent
    [-1074 <= e <= 971], and stands for [m * 2^e]; the mantissa is at
    least [2^52] unless [e = -1074]. *)
Inductive double :=
| NaN
| Infinity (negative : bool)
| Finite (negative : bool) (m e : Z).

Definition zero (negative : bool) : double := Finite negative 0 (-1074).

(** [2^e] times the fraction [num / den], as a fraction. *)
Definition scale2 (num den e : Z) : Z * Z :=
  if 0 <=? e then (num * 2 ^ e, den) else (num, den * 2 ^ (- e)).

(** [10^e] times the fraction [num / den], as a fraction. *)
Definition scale10 (num den e : Z) : Z * Z :=
  if 0 <=? e then (num * 10 ^ e, den) else (num, den * 10 ^ (- e)).

(** The integer nearest to [num / den], ties to even. *)
Definition round_half_even (num den : Z) : Z :=
  let q := num / den in
  let r := num mod den in
  if (den <? 2 * r) || ((den =? 2 * r) && Z.odd q) then q + 1 else q.

(** The double nearest to the fraction [num / den] of two positive
    integers, ties to even, with the sign [negative]. *)
Definition round_to_double (negative : bool) (num den : Z) : double :=
  if num <=? 0 then zero negative
  else
    let d := Z.log2 num - Z.log2 den in
    (* lg is the integer part of the binary logarithm of num / den *)
    let (n1, d1) := scale2 num den (- d) in
    let lg := if d1 <=? n1 then d else d - 1 in
    let e := Z.max (lg - 52) (-1074) in
    let (n2, d2) := scale2 num den (- e) in
    let m := round_half_even n2 d2 in
    let (m', e') := if m =? 2 ^ 53 then (2 ^ 52, e + 1) else (m, e) in
    if 971 <? e' then Infinity negative else Finite negative m' e'.

(** The number written [digits * 10^exponent]. *)
Definition of_decimal (negative : bool) (digits exponent : Z) : double :=
  if digits =? 0 then zero negative
  else
    let size := Z.log2 digits * 30103 / 100000 + exponent in
    if 320 <? size then Infinity negative
    else if size <? -340 then zero negative
    else let (num, den) := scale10 digits 1 exponent in
         round_to_double negative num den.

Definition of_Z (z : Z) : double := of_decimal (z <? 0) (Z.abs z) 0.

(** [x * y] *)
Definition multiply (x y : double) : double :=
  match x, y with
  | NaN, _ | _, NaN => NaN
  | Infinity s1, Infinity s2 => Infinity (xorb s1 s2)
  | Infinity s1, Finite s2 m _ | Finite s2 m _, Infinity s1 =>
    if m =? 0 then NaN else Infinity (xorb s1 s2)
  | Finite s1 m1 e1, Finite s2 m2 e2 =>
    let (num, den) := scale2 (m1 * m2) 1 (e1 + e2) in
    round_to_double (xorb s1 s2) num den
  end.

Definition same_double (x y : double) : bool :=
  match x, y with
  | NaN, NaN => true
  | Infinity s1, Infinity s2 => Bool.eqb s1 s2
  | Finite s1 m1 e1, Finite s2 m2 e2 => Bool.eqb s1 s2 && (m1 =? m2) && (e1 =? e2)
  | _, _ => false
  end.

(** *** [Number.prototype.toString()] *)

Fixpoint digits_of (fuel : nat) (n : Z) (acc : string) : string :=
  match fuel with
  | O => acc
  | S fuel' =>
    let acc' := String (ascii_of_N (Z.to_N (48 + n mod 10))) acc in
    if n <? 10 then acc' else digits_of fuel' (n / 10) acc'
  end.

(** The decimal digits of a natural number. *)
Definition decimal (n : Z) : string := digits_of (S (Z.to_nat (Z.log2 n))) n "".

Fixpoint zeros (n : nat) : string :=
  match n with O => EmptyString | S n' => String "0" (zeros n') end.

(** The [n] with [10^(n-1) <= num/den < 10^n], from a guess at most four
    away from it. *)
Fixpoint adjust_up (fuel : nat) (num den n : Z) : Z :=
  match fuel with
  | O => n
  | S fuel' =>
    let (a, b) := scale10 num den (- n) in
    if b <=? a then adjust_up fuel' num den (n + 1) else n
  end.

Fixpoint adjust_down (fuel : nat) (num den n : Z) : Z :=
  match fuel with
  | O => n
  | S fuel' =>
    let (a, b) := scale10 num den (- (n - 1)) in
    if a <? b then adjust_down fuel' num den (n - 1) else n
  end.

Definition magnitude (num den : Z) : Z :=
  let lg := Z.log2 num - Z.log2 den in
  adjust_up 4 num den (adjust_down 4 num den (lg * 30103 / 100000 + 1)).

(** The digits [s], as few as can be ([k] of them, from [k] on), and the
    exponent [n] such that [s * 10^(n-k)] is read back as the positive
    number [m * 2^e]; among the digits of that length, the nearest to the
    number, the even ones on a tie. *)
Fixpoint shortest (fuel : nat) (k : Z) (m e n : Z) : Z * Z :=
  match fuel with
  | O => (m, n)
  | S fuel' =>
    let (num, den) := scale2 m 1 e in
    let (a, b) := scale10 num den (k - n) in
    let lo := a / b in
    let hi := lo + 1 in
    let reads_back c :=
      let (cn, cd) := scale10 c 1 (n - k) in
      same_double (round_to_double false cn cd) (Finite false m e) in
    let r := a mod b in
    let pick_hi :=
      reads_back hi &&
      (negb (reads_back lo) || (b <? 2 * r) || ((b =? 2 * r) && Z.even hi)) in
    if pick_hi then (if hi =? 10 ^ k then (1, n + 1) else (hi, n))
    else if reads_back lo then (lo, n)
    else shortest fuel' (k + 1) m e n
  end.

Definition to_string_positive (m e : Z) : string :=
  let (num, den) := scale2 m 1 e in
  let (s, n) := shortest 17 1 m e (magnitude num den) in
  let ds := decimal s in
  let k := Z.of_nat (String.length ds) in
  if (k <=? n) && (n <=? 21) then (ds ++ zeros (Z.to_nat (n - k)))%string
  else if (0 <? n) && (n <=? 21) then
    (String.substring 0 (Z.to_nat n) ds ++ "." ++
     String.substring (Z.to_nat n) (Z.to_nat (k - n)) ds)%string
  else if (-6 <? n) && (n <=? 0) then
    ("0." ++ zeros (Z.to_nat (- n)) ++ ds)%string
  else
    let sign : string := if n - 1 <? 0 then "-"%string else "+"%string in
    let mantissa :=
      if k =? 1 then ds
      else (String.substring 0 1 ds ++ "." ++
            String.substring 1 (Z.to_nat (k - 1)) ds)%string in
    (mantissa ++ "e" ++ sign ++ decimal (Z.abs (n - 1)))%string.

Definition to_string (x : double) : string :=
  match x with
  | NaN => "NaN"
  | Infinity false => "Infinity"
  | Infinity true => "-Infinity"
  | Finite negative m e =>
    if m =? 0 then "0"
    else if negative then String "-" (to_string_positive m e)
    else to_string_positive m e
  end.

(** *** [parseFloat] *)

(** White space and line terminators, among the code units below 256. *)
Definition is_space (c : ascii) : bool :=
  let n := N_of_ascii c in
  ((9 <=? n) && (n <=? 13) || (n =? 32) || (n =? 160))%N.

Fixpoint trim_start (s : string) : string :=
  match s with
  | String c rest => if is_space c then trim_start rest else s
  | EmptyString => s
  end.

Definition digit_value (c : ascii) : option Z :=
  let n := Z.of_N (N_of_ascii c) in
  if (48 <=? n) && (n <=? 57) then Some (n - 48) else None.

(** The digits at the front of [s]: their value on top of [acc], how many
    they are on top of [count], and what follows them. *)
Fixpoint read_digits (s : string) (acc : Z) (count : Z) : Z * Z * string :=
  match s with
  | String c rest =>
    match digit_value c with
    | Some d => read_digits rest (acc * 10 + d) (count + 1)
    | None => (acc, count, s)
    end
  | EmptyString => (acc, count, s)
  end.

(** The exponent part at the front of [s]; 0 when there is no whole one. *)
Definition read_exponent (s : string) : Z :=
  match s with
  | String c rest =>
    if Ascii.eqb c "e" || Ascii.eqb c "E" then
      match rest with
      | String "-" rest' => let '(v, _, _) := read_digits rest' 0 0 in - v
      | String "+" rest' => let '(v, _, _) := read_digits rest' 0 0 in v
      | _ => let '(v, _, _) := read_digits rest 0 0 in v
      end
    else 0
  | EmptyString => 0
  end.

(** The longest decimal literal at the front of [s], without its sign. *)
Definition parse_unsigned (negative : bool) (s : string) : double :=
  if String.prefix "Infinity" s then Infinity negative
  else
    let '(int_part, int_count, rest) := read_digits s 0 0 in
    match rest with
    | String "." rest' =>
      let '(all, frac_count, rest'') := read_digits rest' int_part 0 in
      if (int_count =? 0) && (frac_count =? 0) then NaN
      else of_decimal negative all (read_exponent rest'' - frac_count)
    | _ =>
      if int_count =? 0 then NaN
      else of_decimal negative int_part (read_exponent rest)
    end.

Definition parse_float (input : string) : double :=
  match trim_start input with
  | String "-" rest => parse_unsigned true rest
  | String "+" rest => parse_unsigned false rest
  | s => parse_unsigned false s
  end.

(** *** [btoa] and [atob] *)

Definition alphabet : string :=
  "ABCDEFGHIJKLMNOPQRSTUVWXYZabcdefghijklmnopqrstuvwxyz0123456789+/".

Definition digit (n : N) : ascii :=
  match String.get (N.to_nat n) alphabet with Some c => c | None => "="%char end.

Fixpoint encode (bytes : list N) : string :=
  match bytes with
  | [] => EmptyString
  | [a] =>
    String (digit (a / 4)) (String (digit (a mod 4 * 16)) "==")
  | [a; b] =>
    String (digit (a / 4)) (String (digit (a mod 4 * 16 + b / 16))
      (String (digit (b mod 16 * 4)) "="))
  | a :: b :: c :: rest =>
    String (digit (a / 4)) (String (digit (a mod 4 * 16 + b / 16))
      (String (digit (b mod 16 * 4 + c / 64)) (String (digit (c mod 64))
        (encode rest))))
  end%N.

Definition bytes_of (s : string) : list N := map N_of_ascii (list_ascii_of_string s).
Definition string_of (bytes : list N) : string :=
  string_of_list_ascii (map ascii_of_N bytes).

Definition base64_encode (s : string) : string := encode (bytes_of s).

Fixpoint index_from (c : ascii) (table : string) (i : N) : option N :=
  match table with
  | EmptyString => None
  | String d rest => if Ascii.eqb c d then Some i else index_from c rest (i + 1)%N
  end.

Definition value_of (c : ascii) : option N := index_from c alphabet 0%N.

Definition is_ascii_whitespace (c : ascii) : bool :=
  let n := N_of_ascii c in
  ((n =? 9) || (n =? 10) || (n =? 12) || (n =? 13) || (n =? 32))%N.

(** Without the one or two [=] at the end, if there are any. *)
Definition strip_padding (chars : list ascii) : list ascii :=
  match rev chars with
  | "="%char :: "="%char :: front => rev front
  | "="%char :: front => rev front
  | _ => chars
  end.

Fixpoint values_of (chars : list ascii) : option (list N) :=
  match chars with
  | [] => Some []
  | c :: rest =>
    match value_of c, values_of rest with
    | Some v, Some vs => Some (v :: vs)
    | _, _ => None
    end
  end.

(** Six bits a character, eight bits a byte; the bits left over at the
    end are dropped. *)
Fixpoint decode (values : list N) : list N :=
  match values with
  | v1 :: v2 :: v3 :: v4 :: rest =>
    (v1 * 4 + v2 / 16)%N :: (v2 mod 16 * 16 + v3 / 4)%N :: (v3 mod 4 * 64 + v4)%N
      :: decode rest
  | [v1; v2; v3] => [(v1 * 4 + v2 / 16)%N; (v2 mod 16 * 16 + v3 / 4)%N]
  | [v1; v2] => [(v1 * 4 + v2 / 16)%N]
  | _ => []
  end.

Definition base64_decode (s : string) : option string :=
  let data := List.filter (fun c => negb (is_ascii_whitespace c)) (list_ascii_of_string s) in
  let data := if (length data mod 4 =? 0)%nat then strip_padding data else data in
  if (length data mod 4 =? 1)%nat then None
  else option_map (fun values => string_of (decode values)) (values_of data).

Definition builtins : Builtins := {|
  number := double;
  toString := to_string;
  parseFloat := parse_float;
  btoa := base64_encode;
  atob := base64_decode;
  times := multiply;
  lit_1_2 := of_decimal false 12 (-1);
  lit_0_9 := of_decimal false 9 (-1);
  lit_1_15 := of_decimal false 115 (-2)
|}.

End Browser.

(** * Properties *)

(** ** Reading a mapping after a write *)

Lemma rdZ_insert (m : gmap Z Z) k v k' :
  rdZ (<[k:=v]> m) k' = if decide (k = k') then v else rdZ m k'.
Proof.
  unfold rdZ. rewrite lookup_insert. by case_decide.
Qed.

Lemma rdB_insert (m : gmap Z bool) k v k' :
  rdB (<[k:=v]> m) k' = if decide (k = k') then v else rdB m k'.
Proof.
  unfold rdB. rewrite lookup_insert. by case_decide.
Qed.

Lemma rdC_insert (m : gmap Z DecryptionContext) k v k' :
  rdC (<[k:=v]> m) k' = if decide (k = k') then v else rdC m k'.
Proof.
  unfold rdC. rewrite lookup_insert. by case_decide.
Qed.

Lemma rdC_absent (m : gmap Z DecryptionContext) k :
  m !! k = None -> rdC m k = emptyContext.
Proof. unfold rdC. by intros ->. Qed.

(** ** Running the monad symbolically *)

Ltac tx_unfold :=
  unfold transact, dispatch,
    transferOwnership, addProvider, removeProvider, setPaused,
    setCooldownSeconds, openBatch, closeBatch,
    submitEncryptedComputeResource, requestBatchDecryption, myCallback,
    onlyOwner, onlyProvider, whenNotPaused, _hashCiphertexts, _initIfNeeded,
    fhe_asEuint32, fhe_add, fhe_requestDecryption, fhe_checkSignatures,
    checked_add, revert_if, bind, get, store, emit, call, ret, revert in *.

Section Invariants.

Context `{FHELib}.
Variable this : Z.

Lemma invariant_constructor deployer : invariant (constructor deployer).
Proof.
  split; simpl; try lia; intros b; unfold rdB, rdZ;
    rewrite ?lookup_empty; simpl; auto; discriminate.
Qed.

Lemma invariant_step s ec : invariant s -> invariant (step this s ec).
Proof.
  intros [Hc Ho Hf Hn Hu]. destruct ec as [env c]. unfold step. simpl.
  destruct s as [o ip p cd ls ld cb ib cu la dc cr ev]. simpl in *.
  destruct c; tx_unfold; simpl; repeat case_match; simplify_eq; simpl in *;
    try (split; simpl; done).
  all: split; simpl; try done; try lia.
  all: intros b; rewrite ?rdB_insert, ?rdZ_insert; repeat case_decide; subst; try done.
  all: try (intros Hb; exfalso;
            match goal with Hopen : negb (rdB _ _) = false |- _ =>
              apply negb_false_iff, Ho in Hopen; lia end).
  all: try exact (Hf b).
  - (* openBatch: the new id *) lia.
  - (* openBatch: the older ids *) intros Hb%Ho. lia.
  - (* openBatch: ids still unused *) intros Hb. apply Hf. lia.
  - (* closeBatch *) apply Ho.
  - (* requestBatchDecryption: only the issued id is written *)
    intros Hb. rewrite lookup_insert_ne by lia. apply Hu. lia.
  - (* myCallback: an unissued id does not pass the batch check *)
    intros Hb. destruct (decide (requestId = b)) as [->|Hne].
    + exfalso. rewrite (rdC_absent _ _ (Hu b Hb)) in *. simpl in *.
      destruct (rdB ib 0) eqn:Hopen; [apply Ho in Hopen; lia|].
      destruct (Hf 0) as [Hz _]; [lia|]. rewrite Hz in *. done.
    + rewrite lookup_insert_ne by done. by apply Hu.
Qed.

End Invariants.

(** ** Runs *)

Section Runs.

Context `{FHELib}.
Variable this : Z.

Lemma exec_cons ec txs s :
  exec this (ec :: txs) s = exec this txs (step this s ec).
Proof. reflexivity. Qed.

Lemma step_failed s ec : succeeds this s ec = false -> step this s ec = s.
Proof.
  unfold succeeds, step. by destruct (transact this ec.1 ec.2 s).
Qed.

Lemma transact_failure_step s env c e t :
  transact this env c s = Failure e t -> step this s (env, c) = s.
Proof. unfold step. simpl. by intros ->. Qed.

Lemma reachable_exec txs : forall s, reachable this s -> reachable this (exec this txs s).
Proof.
  induction txs as [|ec txs IH]; intros s Hs; [done|].
  rewrite exec_cons. apply IH. by constructor.
Qed.

Lemma reachable_invariant s : reachable this s -> invariant s.
Proof.
  induction 1 as [d _|s ec _ IH].
  - apply invariant_constructor.
  - by apply invariant_step.
Qed.

(** A batch that is not open and whose id has been handed out is frozen:
    no transaction opens it or touches its accumulators. *)
Lemma closed_step s ec b :
  b <= currentBatchId s ->
  rdB (isBatchOpen s) b = false ->
  b <= currentBatchId (step this s ec) /\
  rdB (isBatchOpen (step this s ec)) b = false /\
  rdZ (batchTotalEncryptedComputeUnits (step this s ec)) b
    = rdZ (batchTotalEncryptedComputeUnits s) b /\
  rdZ (batchTotalEncryptedLendAmounts (step this s ec)) b
    = rdZ (batchTotalEncryptedLendAmounts s) b.
Proof.
  intros Hle Hclosed. destruct ec as [env c]. unfold step. simpl.
  destruct s as [o ip p cd ls ld cb ib cu la dc cr ev]. simpl in *.
  destruct c; tx_unfold; simpl; repeat case_match; simplify_eq; simpl in *;
    rewrite ?rdB_insert, ?rdZ_insert; repeat case_decide; subst;
    try (repeat split; first [done | lia]).
  all: match goal with
       | Hopen : negb (rdB _ _) = false |- _ =>
           apply negb_false_iff in Hopen; congruence
       end.
Qed.

Lemma closed_exec txs : forall s b,
  b <= currentBatchId s ->
  rdB (isBatchOpen s) b = false ->
  b <= currentBatchId (exec this txs s) /\
  rdB (isBatchOpen (exec this txs s)) b = false /\
  rdZ (batchTotalEncryptedComputeUnits (exec this txs s)) b
    = rdZ (batchTotalEncryptedComputeUnits s) b /\
  rdZ (batchTotalEncryptedLendAmounts (exec this txs s)) b
    = rdZ (batchTotalEncryptedLendAmounts s) b.
Proof.
  induction txs as [|ec txs IH]; intros s b Hle Hclosed; [done|].
  rewrite exec_cons.
  destruct (closed_step s ec b Hle Hclosed) as (Hle' & Hclosed' & Hcu & Hla).
  destruct (IH _ _ Hle' Hclosed') as (? & ? & -> & ->). done.
Qed.

(** What a successful [closeBatch] does: the batch was open, and only its
    flag and the event log change. *)
Lemma closeBatch_success s env b :
  succeeds this s (env, CloseBatch b) = true ->
  msg_sender env = owner s /\
  rdB (isBatchOpen s) b = true /\
  step this s (env, CloseBatch b) =
    log_event (BatchClosed b) (apply_write (W_isBatchOpen b false) s).
Proof.
  unfold succeeds, step. simpl. tx_unfold. simpl.
  destruct (msg_sender env =? owner s) eqn:Hown; simpl; [|done].
  destruct (rdB (isBatchOpen s) b) eqn:Hopen; simpl; [|done].
  intros _. split; [lia|done].
Qed.

End Runs.

(** ** Batches: closing is final *)

Section Batches.

Context `{FHELib}.
Variable this : Z.

(** What a successful [openBatch] does: it hands out the next id. *)
Lemma openBatch_success s env :
  succeeds this s (env, OpenBatch) = true ->
  currentBatchId (step this s (env, OpenBatch)) = currentBatchId s + 1 /\
  rdB (isBatchOpen (step this s (env, OpenBatch))) (currentBatchId s + 1) = true.
Proof.
  unfold succeeds, step. simpl.
  destruct s as [o ip p cd ls ld cb ib cu la dc cr ev].
  tx_unfold. simpl. repeat case_match; simplify_eq; simpl; try done.
  intros _. split; [done|]. rewrite rdB_insert. by case_decide.
Qed.

(** C7. Once a batch has been closed it is never open again: in a reachable
    state, after a successful [closeBatch b], whatever transactions follow,
    the flag of [b] stays false; an [openBatch] that follows hands out
    [currentBatchId + 1], which is above [b]; and closing leaves both
    accumulator maps as they were. *)
Theorem closed_batch_never_reopens s env b txs env' :
  reachable this s ->
  succeeds this s (env, CloseBatch b) = true ->
  let s1 := step this s (env, CloseBatch b) in
  let s2 := exec this txs s1 in
  batchTotalEncryptedComputeUnits s1 = batchTotalEncryptedComputeUnits s /\
  batchTotalEncryptedLendAmounts s1 = batchTotalEncryptedLendAmounts s /\
  rdB (isBatchOpen s1) b = false /\
  rdB (isBatchOpen s2) b = false /\
  (succeeds this s2 (env', OpenBatch) = true ->
     currentBatchId (step this s2 (env', OpenBatch)) = currentBatchId s2 + 1 /\
     b < currentBatchId s2 + 1 /\
     rdB (isBatchOpen (step this s2 (env', OpenBatch))) (currentBatchId s2 + 1) = true /\
     rdB (isBatchOpen (step this s2 (env', OpenBatch))) b = false).
Proof.
  intros Hreach Hclose s1 s2.
  destruct (closeBatch_success this s env b Hclose) as (_ & Hopen & Hs1).
  pose proof (inv_open _ (reachable_invariant this s Hreach) b Hopen) as Hrange.
  assert (Hle1 : b <= currentBatchId s1).
  { subst s1. rewrite Hs1. destruct s. simpl in *. lia. }
  assert (Hclosed1 : rdB (isBatchOpen s1) b = false).
  { subst s1. rewrite Hs1. destruct s. simpl. rewrite rdB_insert. by case_decide. }
  destruct (closed_exec this txs s1 b Hle1 Hclosed1) as (Hle2 & Hclosed2 & _ & _).
  repeat split; try done.
  - subst s1. rewrite Hs1. by destruct s.
  - subst s1. rewrite Hs1. by destruct s.
  - by apply openBatch_success.
  - unfold s2. lia.
  - by apply openBatch_success.
  - by apply (closed_step this s2 (env', OpenBatch) b).
Qed.

End Batches.

(** The theorem at work: batch 1 is opened and closed, a second batch is
    opened and a request is made; batch 1 stays closed. *)
Lemma closed_batch_never_reopens_witness :
  let s := Toy.run [(Toy.at_time 1 10, OpenBatch)] (constructor 1) in
  let s1 := Toy.after s (Toy.at_time 1 11, CloseBatch 1) in
  let s2 := Toy.run [(Toy.at_time 1 12, OpenBatch);
                     (Toy.at_time 1 13, RequestBatchDecryption 1)] s1 in
  rdB (isBatchOpen s2) 1 = false /\
  rdB (isBatchOpen (Toy.after s2 (Toy.at_time 1 14, OpenBatch))) 1 = false.
Proof.
  intros s s1 s2.
  destruct (@closed_batch_never_reopens Toy.lib Toy.this s (Toy.at_time 1 11) 1
              [(Toy.at_time 1 12, OpenBatch);
               (Toy.at_time 1 13, RequestBatchDecryption 1)]
              (Toy.at_time 1 14)) as (_ & _ & _ & Hclosed & Hopen).
  - apply reachable_exec. constructor. lia.
  - vm_compute. reflexivity.
  - split; [exact Hclosed|]. apply Hopen. vm_compute. reflexivity.
Defined.

(** ** The submissions of a run *)

Section Submissions.

Context `{FHELib}.
Variable this : Z.

Lemma submissions_cons b ec txs s :
  submissions this b (ec :: txs) s =
    match ec.2 with
    | SubmitEncryptedComputeResource b' u l =>
      if succeeds this s ec && (b' =? b)
      then (u, l) :: submissions this b txs (step this s ec)
      else submissions this b txs (step this s ec)
    | _ => submissions this b txs (step this s ec)
    end.
Proof. reflexivity. Qed.

End Submissions.

Lemma toy_decrypt_encrypt v : Toy.decrypt (Toy.encrypt v) = v mod MOD32.
Proof.
  unfold Toy.decrypt, Toy.encrypt.
  pose proof (Z.mod_pos_bound v MOD32 eq_refl) as Hb.
  destruct (v mod MOD32 + 1 =? 0) eqn:Hz; [lia|].
  replace (v mod MOD32 + 1 - 1) with (v mod MOD32) by lia.
  apply Z.mod_mod. done.
Qed.

Lemma toy_nonzero_handles : @nonzero_handles Toy.lib.
Proof.
  intros a b. simpl. unfold Toy.encrypt.
  pose proof (Z.mod_pos_bound (Toy.decrypt a + Toy.decrypt b) MOD32 eq_refl). lia.
Qed.

(** ** The decryption callback *)

Section Callback.

Context `{FHELib}.
Variable this : Z.

(** The callback, check by check. *)
Lemma myCallback_outcome s env id c p :
  let ctx := rdC (decryptionContexts s) id in
  let b := batchId ctx in
  let words := abi_encode [rdZ (batchTotalEncryptedComputeUnits s) b;
                           rdZ (batchTotalEncryptedLendAmounts s) b] this in
  transact this env (MyCallback id c p) s =
    if processed ctx then Failure ReplayDetected []
    else if negb (rdB (isBatchOpen s) b)
            && (rdZ (batchTotalEncryptedComputeUnits s) b =? 0)
    then Failure InvalidBatchId []
    else if negb (keccak256 words =? stateHash ctx)
    then Failure StateMismatch [ECall (L_keccak256 words)]
    else if negb (FHE_checkSignatures id c p)
    then Failure InvalidSignatures
           [ECall (L_keccak256 words); ECall (L_checkSignatures id c p)]
    else match abi_decode_uint256 c with
         | None => Failure AbiDecodeFailure
                     [ECall (L_keccak256 words); ECall (L_checkSignatures id c p)]
         | Some total =>
           let done := mkContext b (stateHash ctx) true in
           Success
             (log_event (DecryptionCompleted id b total (mload_second_word env c))
                (apply_write (W_decryptionContexts id done) s))
             [ECall (L_keccak256 words); ECall (L_checkSignatures id c p);
              EStore (W_decryptionContexts id done);
              EEmit (DecryptionCompleted id b total (mload_second_word env c))]
         end.
Proof.
  intros ctx b words. unfold transact, dispatch, myCallback, bind, get. fold ctx.
  unfold revert_if at 1. destruct (processed ctx); [done|]. simpl. fold b.
  unfold revert_if at 1.
  destruct (negb (rdB (isBatchOpen s) b)
            && (rdZ (batchTotalEncryptedComputeUnits s) b =? 0)); [done|].
  simpl. unfold _hashCiphertexts, bind, call, ret. simpl. fold words.
  unfold revert_if at 1.
  destruct (negb (keccak256 words =? stateHash ctx)); [done|]. simpl.
  unfold fhe_checkSignatures, bind, call, revert_if.
  destruct (negb (FHE_checkSignatures id c p)); [done|]. simpl.
  destruct (abi_decode_uint256 c); [|done].
  unfold bind, get, store, emit. simpl. reflexivity.
Qed.

(** What a successful callback needed and did. *)
Lemma myCallback_success s env id c p :
  succeeds this s (env, MyCallback id c p) = true ->
  let ctx := rdC (decryptionContexts s) id in
  processed ctx = false /\
  (rdB (isBatchOpen s) (batchId ctx) = true \/
   rdZ (batchTotalEncryptedComputeUnits s) (batchId ctx) <> 0) /\
  commitment this s (batchId ctx) = stateHash ctx /\
  FHE_checkSignatures id c p = true /\
  exists total,
    abi_decode_uint256 c = Some total /\
    step this s (env, MyCallback id c p)
      = log_event (DecryptionCompleted id (batchId ctx) total (mload_second_word env c))
          (apply_write
             (W_decryptionContexts id (mkContext (batchId ctx) (stateHash ctx) true)) s).
Proof.
  unfold succeeds, step. simpl. rewrite myCallback_outcome. unfold commitment.
  set (ctx := rdC (decryptionContexts s) id).
  set (h := keccak256 _).
  destruct (processed ctx); [done|].
  destruct (rdB (isBatchOpen s) (batchId ctx)) eqn:Hopen; simpl.
  - destruct (Z.eqb_spec h (stateHash ctx)) as [Heq|]; simpl; [|done].
    destruct (FHE_checkSignatures id c p); simpl; [|done].
    destruct (abi_decode_uint256 c) as [total|]; [|done]. intros _.
    repeat split; auto. by exists total.
  - destruct (Z.eqb_spec (rdZ (batchTotalEncryptedComputeUnits s) (batchId ctx)) 0)
      as [|Hnz]; simpl; [done|].
    destruct (Z.eqb_spec h (stateHash ctx)) as [Heq|]; simpl; [|done].
    destruct (FHE_checkSignatures id c p); simpl; [|done].
    destruct (abi_decode_uint256 c) as [total|]; [|done]. intros _.
    repeat split; auto. by exists total.
Qed.

Lemma myCallback_success_contexts s env id c p :
  succeeds this s (env, MyCallback id c p) = true ->
  decryptionContexts (step this s (env, MyCallback id c p))
    = <[id := mkContext (batchId (rdC (decryptionContexts s) id))
                        (stateHash (rdC (decryptionContexts s) id)) true]>
        (decryptionContexts s).
Proof.
  intros (_ & _ & _ & _ & total & _ & ->)%myCallback_success. by destruct s.
Qed.

(** A context that is marked processed stays so: the only other write to
    the contexts is the one of [requestBatchDecryption], at an id that was
    not issued before. *)
Lemma processed_step s ec id :
  invariant s ->
  processed (rdC (decryptionContexts s) id) = true ->
  processed (rdC (decryptionContexts (step this s ec)) id) = true.
Proof.
  intros Hinv Hdone. destruct ec as [env c].
  destruct c;
    try (unfold step; simpl;
         destruct s as [o ip p cd ls ld cb ib cu la dc cr ev];
         tx_unfold; simpl; repeat case_match; simplify_eq; simpl in *; done).
  - (* requestBatchDecryption *)
    pose proof (inv_unissued s Hinv (counterRequest s)) as Hfresh.
    unfold step; simpl.
    destruct s as [o ip p cd ls ld cb ib cu la dc cr ev].
    tx_unfold; simpl; repeat case_match; simplify_eq; simpl in *; try done.
    rewrite rdC_insert. case_decide; [|done]. subst id.
    rewrite (rdC_absent dc cr) in Hdone; [done|]. apply Hfresh. lia.
  - (* myCallback *)
    destruct (succeeds this s (env, MyCallback requestId cleartexts proof)) eqn:Hok.
    + rewrite (myCallback_success_contexts _ _ _ _ _ Hok).
      rewrite rdC_insert. by case_decide.
    + by rewrite step_failed.
Qed.

Lemma processed_exec txs : forall s id,
  reachable this s ->
  processed (rdC (decryptionContexts s) id) = true ->
  processed (rdC (decryptionContexts (exec this txs s)) id) = true.
Proof.
  induction txs as [|ec txs IH]; intros s id Hreach Hdone; [done|].
  rewrite exec_cons. apply IH; [by constructor|].
  apply processed_step; [by apply reachable_invariant with this|done].
Qed.

Lemma resolutions_cons id ec txs s :
  resolutions this id (ec :: txs) s =
    match ec.2 with
    | MyCallback id' _ _ =>
      if succeeds this s ec && (id' =? id)
      then S (resolutions this id txs (step this s ec))
      else resolutions this id txs (step this s ec)
    | _ => resolutions this id txs (step this s ec)
    end.
Proof. reflexivity. Qed.

Lemma replayed_callback_fails s env id c p :
  processed (rdC (decryptionContexts s) id) = true ->
  succeeds this s (env, MyCallback id c p) = false.
Proof.
  intros Hdone. unfold succeeds. simpl. rewrite myCallback_outcome. by rewrite Hdone.
Qed.

Lemma resolutions_after_processed txs : forall s id,
  reachable this s ->
  processed (rdC (decryptionContexts s) id) = true ->
  resolutions this id txs s = O.
Proof.
  induction txs as [|ec txs IH]; intros s id Hreach Hdone; [done|].
  rewrite resolutions_cons.
  assert (Hnext : resolutions this id txs (step this s ec) = O).
  { apply IH; [by constructor|].
    apply processed_step; [by apply reachable_invariant with this|done]. }
  destruct ec as [env c]. destruct c; simpl; try done.
  destruct (Z.eqb_spec requestId id) as [->|_]; rewrite ?andb_false_r; [|done].
  by rewrite replayed_callback_fails.
Qed.

Lemma resolutions_at_most_one txs : forall s id,
  reachable this s -> (resolutions this id txs s <= 1)%nat.
Proof.
  induction txs as [|ec txs IH]; intros s id Hreach; [simpl; lia|].
  rewrite resolutions_cons.
  pose proof (IH (step this s ec) id (reachable_step this s ec Hreach)) as Hrest.
  destruct ec as [env c]. destruct c; simpl; try done.
  destruct (succeeds this s _) eqn:Hok; simpl; [|done].
  destruct (Z.eqb_spec requestId id) as [->|_]; [|done].
  rewrite resolutions_after_processed; [lia|by constructor|].
  rewrite (myCallback_success_contexts _ _ _ _ _ Hok).
  rewrite rdC_insert. by case_decide.
Qed.

(** C2. In a reachable state, once a callback for [requestId] has succeeded
    its context is marked processed; from then on, whatever transactions
    come in between, every callback for the same [requestId] fails with
    [ReplayDetected] without having performed any effect, and leaves the
    storage, the event log included, as it was; no run from a reachable
    state resolves a [requestId] more than once. *)
Theorem callback_resolves_once s env requestId c p :
  reachable this s ->
  succeeds this s (env, MyCallback requestId c p) = true ->
  let s1 := step this s (env, MyCallback requestId c p) in
  processed (rdC (decryptionContexts s1) requestId) = true /\
  (forall txs env' c' p',
     let s2 := exec this txs s1 in
     processed (rdC (decryptionContexts s2) requestId) = true /\
     transact this env' (MyCallback requestId c' p') s2 = Failure ReplayDetected [] /\
     step this s2 (env', MyCallback requestId c' p') = s2 /\
     events (step this s2 (env', MyCallback requestId c' p')) = events s2) /\
  (forall txs, (resolutions this requestId txs s <= 1)%nat) /\
  (forall txs, resolutions this requestId txs s1 = O).
Proof.
  intros Hreach Hok s1.
  assert (Hdone : processed (rdC (decryptionContexts s1) requestId) = true).
  { unfold s1. rewrite (myCallback_success_contexts _ _ _ _ _ Hok).
    rewrite rdC_insert. by case_decide. }
  assert (Hreach1 : reachable this s1) by by constructor.
  split; [done|]. split; [|split].
  - intros txs env' c' p' s2.
    assert (Hdone2 : processed (rdC (decryptionContexts s2) requestId) = true)
      by by apply processed_exec.
    assert (Hfail : transact this env' (MyCallback requestId c' p') s2
                    = Failure ReplayDetected []).
    { rewrite myCallback_outcome. by rewrite Hdone2. }
    rewrite (transact_failure_step this _ _ _ _ _ Hfail). done.
  - intros txs. by apply resolutions_at_most_one.
  - intros txs. by apply resolutions_after_processed.
Qed.

End Callback.

(** ** The commitment check *)

Section Commitment.

Context `{FHELib}.
Variable this : Z.
Hypothesis handles : nonzero_handles.

Lemma commitments_ok_constructor deployer : commitments_ok this (constructor deployer).
Proof.
  split; simpl.
  - intros b _. unfold rdZ. by rewrite lookup_empty.
  - intros id ctx. by rewrite lookup_empty.
Qed.

Lemma commitments_ok_step s ec :
  invariant s -> commitments_ok this s -> commitments_ok this (step this s ec).
Proof.
  intros Hinv [Hpair Hcommit]. destruct ec as [env c].
  destruct c;
    try (unfold step; simpl;
         destruct s as [o ip p cd ls ld cb ib cu la dc cr ev];
         tx_unfold; simpl; repeat case_match; simplify_eq; simpl in *;
         by split).
  - (* submitEncryptedComputeResource: the written handles are not zero *)
    unfold step; simpl.
    destruct s as [o ip p cd ls ld cb ib cu la dc cr ev].
    tx_unfold; simpl; repeat case_match; simplify_eq; simpl in *; try by split.
    all: split; simpl;
      [ intros b; rewrite !rdZ_insert; case_decide;
        [intros Hz; by apply handles in Hz | apply Hpair]
      | intros id ctx Hctx; rewrite rdZ_insert; case_decide;
        [intros Hz; by apply handles in Hz | by apply (Hcommit id)] ].
  - (* requestBatchDecryption: the new context commits to the current pair *)
    unfold step; simpl.
    destruct s as [o ip p cd ls ld cb ib cu la dc cr ev].
    tx_unfold; simpl; repeat case_match; simplify_eq; simpl in *; try by split.
    split; simpl; [done|].
    intros id ctx. rewrite lookup_insert. case_decide; [|apply Hcommit].
    intros [= <-]. simpl. intros Hz. rewrite Hz, (Hpair _ Hz). done.
  - (* myCallback: only the processed flag of a stored context changes *)
    destruct (succeeds this s (env, MyCallback requestId cleartexts proof)) eqn:Hok;
      [|by rewrite step_failed].
    destruct (myCallback_success this s env requestId cleartexts proof Hok)
      as (_ & Hgate & _ & _ & total & _ & ->).
    destruct s as [o ip p cd ls ld cb ib cu la dc cr ev]. simpl in *.
    split; simpl; [done|].
    intros id ctx. rewrite lookup_insert. case_decide; [|apply Hcommit].
    intros [= <-]. simpl. subst id.
    destruct (dc !! requestId) as [ctx0|] eqn:Hstored.
    + unfold rdC. rewrite Hstored. simpl. by apply (Hcommit requestId).
    + exfalso. rewrite (rdC_absent dc requestId Hstored) in Hgate. simpl in Hgate.
      destruct Hgate as [Hopen|Hdata].
      * apply (inv_open _ Hinv) in Hopen. simpl in Hopen. lia.
      * destruct (inv_fresh _ Hinv 0) as [Hz _]; [lia|]. done.
Qed.

Lemma reachable_commitments_ok s : reachable this s -> commitments_ok this s.
Proof.
  induction 1 as [d _|s ec Hreach IH].
  - apply commitments_ok_constructor.
  - apply commitments_ok_step; [by apply reachable_invariant with this|done].
Qed.

(** C3. In a reachable state, for a [requestId] with a stored context that
    is not yet processed, the callback compares the hash of the current
    accumulator pair of the batch and the contract address with the stored
    commitment: when they differ it fails with [StateMismatch], having only
    computed the hash, and the storage stays as it was; and it reaches the
    signature check only when they are equal. *)
Theorem callback_checks_commitment s env requestId ctx c p :
  reachable this s ->
  decryptionContexts s !! requestId = Some ctx ->
  processed ctx = false ->
  let cts := [rdZ (batchTotalEncryptedComputeUnits s) (batchId ctx);
              rdZ (batchTotalEncryptedLendAmounts s) (batchId ctx)] in
  let currentHash := keccak256 (abi_encode cts this) in
  (currentHash <> stateHash ctx ->
     transact this env (MyCallback requestId c p) s
       = Failure StateMismatch [ECall (L_keccak256 (abi_encode cts this))] /\
     step this s (env, MyCallback requestId c p) = s) /\
  (In (ECall (L_checkSignatures requestId c p))
      (effects (transact this env (MyCallback requestId c p) s)) ->
     currentHash = stateHash ctx).
Proof.
  intros Hreach Hstored Hfresh cts currentHash.
  pose proof (reachable_commitments_ok s Hreach) as [Hpair Hcommit].
  assert (Hctx : rdC (decryptionContexts s) requestId = ctx)
    by (unfold rdC; by rewrite Hstored).
  pose proof (myCallback_outcome this s env requestId c p) as Hout.
  simpl in Hout. rewrite Hctx, Hfresh in Hout. fold cts currentHash in Hout.
  split.
  - intros Hdiff.
    assert (Hfail : transact this env (MyCallback requestId c p) s
              = Failure StateMismatch [ECall (L_keccak256 (abi_encode cts this))]).
    { rewrite Hout.
      destruct (rdB (isBatchOpen s) (batchId ctx)) eqn:Hopen; simpl.
      - destruct (Z.eqb_spec currentHash (stateHash ctx)); done.
      - destruct (Z.eqb_spec (rdZ (batchTotalEncryptedComputeUnits s) (batchId ctx)) 0)
          as [Hz|_]; simpl.
        + exfalso. apply Hdiff. unfold currentHash, cts.
          rewrite (Hcommit _ _ Hstored Hz), Hz, (Hpair _ Hz). done.
        + destruct (Z.eqb_spec currentHash (stateHash ctx)); done. }
    split; [done|]. by apply transact_failure_step in Hfail.
  - rewrite Hout.
    destruct (negb (rdB (isBatchOpen s) (batchId ctx))
              && (rdZ (batchTotalEncryptedComputeUnits s) (batchId ctx) =? 0));
      simpl; [done|].
    destruct (Z.eqb_spec currentHash (stateHash ctx)) as [Heq|Hne]; simpl; [done|].
    intros [Hin|[]]. discriminate.
Qed.

End Commitment.


(** ** The two gated entry points, check by check *)

Section Gates.

Context `{FHELib}.
Variable this : Z.

Lemma submit_outcome s env b u l :
  let sender := msg_sender env in
  let now := block_timestamp env in
  let ready := rdZ (lastSubmissionTime s) sender + cooldownSeconds s in
  let acc1 := rdZ (batchTotalEncryptedComputeUnits s) b in
  let acc2 := rdZ (batchTotalEncryptedLendAmounts s) b in
  let units := FHE_add u (FHE_asEuint32 acc1) in
  let lends := FHE_add l (FHE_asEuint32 acc2) in
  transact this env (SubmitEncryptedComputeResource b u l) s =
    if negb (rdB (isProvider s) sender) then Failure NotProvider []
    else if paused s then Failure Paused []
    else if MAX_UINT256 <? ready then Failure ArithmeticOverflow []
    else if now <? ready then Failure CooldownActive []
    else if negb (rdB (isBatchOpen s) b) then Failure BatchClosedOrNonExistent []
    else Success
      (log_event (ComputeResourceSubmitted sender b u l)
         (apply_write (W_batchTotalEncryptedLendAmounts b lends)
            (apply_write (W_batchTotalEncryptedComputeUnits b units)
               (apply_write (W_lastSubmissionTime sender now) s))))
      (EStore (W_lastSubmissionTime sender now)
       :: init_calls u ++ init_calls l ++
       [ECall (L_asEuint32 acc1); ECall (L_add u (FHE_asEuint32 acc1));
        EStore (W_batchTotalEncryptedComputeUnits b units);
        ECall (L_asEuint32 acc2); ECall (L_add l (FHE_asEuint32 acc2));
        EStore (W_batchTotalEncryptedLendAmounts b lends);
        EEmit (ComputeResourceSubmitted sender b u l)]).
Proof.
  intros sender now ready acc1 acc2 units lends.
  subst sender now ready acc1 acc2 units lends.
  destruct s as [o ip p cd ls ld cb ib cu la dc cr ev]. simpl.
  unfold transact, dispatch, submitEncryptedComputeResource, onlyProvider,
    whenNotPaused, checked_add, bind, get. simpl.
  unfold revert_if at 1. destruct (negb (rdB ip (msg_sender env))); [done|]. simpl.
  unfold revert_if at 1. destruct p; [done|]. simpl.
  destruct (MAX_UINT256 <? rdZ ls (msg_sender env) + cd); [done|]. simpl.
  unfold revert_if at 1.
  destruct (block_timestamp env <? rdZ ls (msg_sender env) + cd); [done|]. simpl.
  unfold revert_if at 1. destruct (negb (rdB ib b)); [done|]. simpl.
  unfold init_calls, _initIfNeeded, FHE_toBytes32.
  destruct (FHE_isInitialized u), (FHE_isInitialized l); reflexivity.
Qed.

Lemma request_outcome s env b :
  let sender := msg_sender env in
  let now := block_timestamp env in
  let ready := rdZ (lastDecryptionRequestTime s) sender + cooldownSeconds s in
  let cts := [rdZ (batchTotalEncryptedComputeUnits s) b;
              rdZ (batchTotalEncryptedLendAmounts s) b] in
  let hash := keccak256 (abi_encode cts this) in
  let id := counterRequest s in
  transact this env (RequestBatchDecryption b) s =
    if negb (sender =? owner s) then Failure NotOwner []
    else if paused s then Failure Paused []
    else if MAX_UINT256 <? ready then Failure ArithmeticOverflow []
    else if now <? ready then Failure CooldownActive []
    else if rdB (isBatchOpen s) b then Failure BatchClosedOrNonExistent []
    else Success
      (log_event (DecryptionRequested id b hash)
         (apply_write (W_decryptionContexts id (mkContext b hash false))
            (apply_write (W_counterRequest (id + 1))
               (apply_write (W_lastDecryptionRequestTime sender now) s))))
      [EStore (W_lastDecryptionRequestTime sender now);
       ECall (L_keccak256 (abi_encode cts this));
       ECall (L_requestDecryption cts);
       EStore (W_counterRequest (id + 1));
       EStore (W_decryptionContexts id (mkContext b hash false));
       EEmit (DecryptionRequested id b hash)].
Proof.
  intros sender now ready cts hash id. subst sender now ready cts hash id.
  destruct s as [o ip p cd ls ld cb ib cu la dc cr ev]. simpl.
  unfold transact, dispatch, requestBatchDecryption, onlyOwner,
    whenNotPaused, checked_add, bind, get. simpl.
  unfold revert_if at 1. destruct (negb (msg_sender env =? o)); [done|]. simpl.
  unfold revert_if at 1. destruct p; [done|]. simpl.
  destruct (MAX_UINT256 <? rdZ ld (msg_sender env) + cd); [done|]. simpl.
  unfold revert_if at 1.
  destruct (block_timestamp env <? rdZ ld (msg_sender env) + cd); [done|]. simpl.
  unfold revert_if at 1. destruct (rdB ib b); [done|]. reflexivity.
Qed.

(** C4. For every batch id: while the batch is open, a decryption request
    by the owner, with the contract not paused and the cooldown elapsed,
    fails with [BatchClosedOrNonExistent]; once the owner has closed the
    batch the same call succeeds, and stores under the request id it was
    issued a context for this batch that is not processed and commits to
    the accumulators of the batch. *)
Theorem request_needs_closed_batch s env env' b :
  msg_sender env = owner s ->
  paused s = false ->
  rdZ (lastDecryptionRequestTime s) (msg_sender env) + cooldownSeconds s
    <= block_timestamp env <= MAX_UINT256 ->
  msg_sender env' = owner s ->
  rdB (isBatchOpen s) b = true ->
  transact this env (RequestBatchDecryption b) s
    = Failure BatchClosedOrNonExistent [] /\
  succeeds this s (env', CloseBatch b) = true /\
  let s1 := step this s (env', CloseBatch b) in
  let s2 := step this s1 (env, RequestBatchDecryption b) in
  let requestId := counterRequest s1 in
  succeeds this s1 (env, RequestBatchDecryption b) = true /\
  decryptionContexts s2 !! requestId
    = Some (mkContext b (commitment this s b) false) /\
  last (events s2) = Some (DecryptionRequested requestId b (commitment this s b)).
Proof.
  intros Hown Hrun Hcool Hown' Hopen.
  assert (Hclose : succeeds this s (env', CloseBatch b) = true).
  { unfold succeeds. simpl. tx_unfold. cbn [negb].
    rewrite Hown', Z.eqb_refl. cbn [negb]. rewrite Hopen. done. }
  split; [|split; [done|]].
  - rewrite request_outcome. rewrite Hown, Z.eqb_refl, Hrun, Hopen. simpl.
    rewrite Hown in Hcool.
    destruct (Z.ltb_spec MAX_UINT256
      (rdZ (lastDecryptionRequestTime s) (owner s) + cooldownSeconds s)); [lia|].
    destruct (Z.ltb_spec (block_timestamp env)
      (rdZ (lastDecryptionRequestTime s) (owner s) + cooldownSeconds s)); [lia|].
    done.
  - destruct (closeBatch_success this s env' b Hclose) as (_ & _ & ->).
    unfold succeeds, step. simpl. rewrite request_outcome.
    destruct s as [o ip p cd ls ld cb ib cu la dc cr ev]. simpl in *. subst.
    rewrite Z.eqb_refl, rdB_insert. simpl. rewrite decide_True by done.
    destruct (Z.ltb_spec MAX_UINT256 (rdZ ld (msg_sender env) + cd)); [lia|].
    destruct (Z.ltb_spec (block_timestamp env) (rdZ ld (msg_sender env) + cd)); [lia|].
    simpl. split; [done|]. split.
    + by rewrite lookup_insert_eq.
    + by rewrite last_snoc.
Qed.

(** C9. [requestBatchDecryption] does not ask whether the batch was ever
    opened: for every batch id whose flag is false, a request by the owner,
    not paused and with the cooldown elapsed, succeeds and stores an
    unprocessed context committing to the accumulators of that id; in a
    reachable state the ids that were never handed out, 0 and those above
    [currentBatchId], have a false flag and zero accumulators, so the
    request goes through and commits to the pair of zeros. *)
Theorem request_accepts_unopened_batch s env b :
  msg_sender env = owner s ->
  paused s = false ->
  rdZ (lastDecryptionRequestTime s) (msg_sender env) + cooldownSeconds s
    <= block_timestamp env <= MAX_UINT256 ->
  let s1 := step this s (env, RequestBatchDecryption b) in
  (rdB (isBatchOpen s) b = false ->
     succeeds this s (env, RequestBatchDecryption b) = true /\
     decryptionContexts s1 !! counterRequest s
       = Some (mkContext b (commitment this s b) false) /\
     counterRequest s1 = counterRequest s + 1) /\
  (reachable this s -> b <= 0 \/ currentBatchId s < b ->
     rdB (isBatchOpen s) b = false /\
     rdZ (batchTotalEncryptedComputeUnits s) b = 0 /\
     rdZ (batchTotalEncryptedLendAmounts s) b = 0 /\
     succeeds this s (env, RequestBatchDecryption b) = true /\
     decryptionContexts s1 !! counterRequest s
       = Some (mkContext b (keccak256 (abi_encode [0; 0] this)) false)).
Proof.
  intros Hown Hrun Hcool s1.
  assert (Hclosed_ok : rdB (isBatchOpen s) b = false ->
     succeeds this s (env, RequestBatchDecryption b) = true /\
     decryptionContexts s1 !! counterRequest s
       = Some (mkContext b (commitment this s b) false) /\
     counterRequest s1 = counterRequest s + 1).
  { intros Hclosed. unfold s1, succeeds, step. simpl. rewrite request_outcome.
    rewrite Hown, Z.eqb_refl, Hrun, Hclosed. simpl. rewrite Hown in Hcool.
    destruct (Z.ltb_spec MAX_UINT256
      (rdZ (lastDecryptionRequestTime s) (owner s) + cooldownSeconds s)); [lia|].
    destruct (Z.ltb_spec (block_timestamp env)
      (rdZ (lastDecryptionRequestTime s) (owner s) + cooldownSeconds s)); [lia|].
    destruct s. simpl. split; [done|]. by rewrite lookup_insert_eq. }
  split; [done|].
  intros Hreach Hunused.
  pose proof (reachable_invariant this s Hreach) as Hinv.
  assert (Hclosed : rdB (isBatchOpen s) b = false).
  { destruct (rdB (isBatchOpen s) b) eqn:Hopen; [|done].
    apply (inv_open _ Hinv) in Hopen. lia. }
  destruct (inv_fresh _ Hinv b Hunused) as [Hu Hl].
  destruct (Hclosed_ok Hclosed) as (Hok & Hctx & _).
  repeat split; try done.
  rewrite Hctx. unfold commitment. by rewrite Hu, Hl.
Qed.

(** C5 (amended). For the submission and for the decryption request alike,
    on a call that passes the access and pause modifiers at time [T]:
    the call is accepted only if [T] is at least the caller's last time
    for that kind of action plus [cooldownSeconds]; if [T] is below that
    sum the call fails and the storage, the time stamp included, stays as
    it was, with [CooldownActive] when the sum fits in 256 bits and with
    the overflow panic when it does not; on success the write of [T] to
    the caller's time stamp is the first effect of the call, and the time
    stamps of the other kind are left alone.  Both kinds read the one
    [cooldownSeconds]. *)
Theorem cooldown_gate s env b u l :
  let sender := msg_sender env in
  let T := block_timestamp env in
  (rdB (isProvider s) sender = true -> paused s = false ->
   let ready := rdZ (lastSubmissionTime s) sender + cooldownSeconds s in
   let call := SubmitEncryptedComputeResource b u l in
   (T < ready ->
      transact this env call s
        = Failure (if MAX_UINT256 <? ready then ArithmeticOverflow else CooldownActive) [] /\
      step this s (env, call) = s) /\
   (succeeds this s (env, call) = true ->
      ready <= T /\
      (exists rest, effects (transact this env call s)
                      = EStore (W_lastSubmissionTime sender T) :: rest) /\
      rdZ (lastSubmissionTime (step this s (env, call))) sender = T /\
      lastDecryptionRequestTime (step this s (env, call))
        = lastDecryptionRequestTime s)) /\
  (sender = owner s -> paused s = false ->
   let ready := rdZ (lastDecryptionRequestTime s) sender + cooldownSeconds s in
   let call := RequestBatchDecryption b in
   (T < ready ->
      transact this env call s
        = Failure (if MAX_UINT256 <? ready then ArithmeticOverflow else CooldownActive) [] /\
      step this s (env, call) = s) /\
   (succeeds this s (env, call) = true ->
      ready <= T /\
      (exists rest, effects (transact this env call s)
                      = EStore (W_lastDecryptionRequestTime sender T) :: rest) /\
      rdZ (lastDecryptionRequestTime (step this s (env, call))) sender = T /\
      lastSubmissionTime (step this s (env, call)) = lastSubmissionTime s)).
Proof.
  intros sender T. split.
  - intros Hprov Hrun ready call.
    pose proof (submit_outcome s env b u l) as Hout. simpl in Hout.
    fold sender T ready in Hout. rewrite Hprov, Hrun in Hout. simpl in Hout.
    split.
    + intros Hearly.
      assert (Hfail : transact this env call s
         = Failure (if MAX_UINT256 <? ready then ArithmeticOverflow else CooldownActive) []).
      { unfold call. rewrite Hout. destruct (MAX_UINT256 <? ready); [done|].
        destruct (Z.ltb_spec T ready); [done|lia]. }
      split; [done|]. by apply transact_failure_step in Hfail.
    + unfold succeeds, step, call. simpl. rewrite Hout.
      destruct (MAX_UINT256 <? ready); [done|].
      destruct (Z.ltb_spec T ready); [done|].
      destruct (negb (rdB (isBatchOpen s) b)); [done|]. intros _. simpl.
      split; [done|]. split; [by eexists|].
      destruct s. simpl. rewrite rdZ_insert. by rewrite decide_True.
  - intros Hown Hrun ready call.
    pose proof (request_outcome s env b) as Hout. simpl in Hout.
    fold sender T ready in Hout.
    rewrite (proj2 (Z.eqb_eq sender (owner s)) Hown), Hrun in Hout.
    simpl in Hout. split.
    + intros Hearly.
      assert (Hfail : transact this env call s
         = Failure (if MAX_UINT256 <? ready then ArithmeticOverflow else CooldownActive) []).
      { unfold call. rewrite Hout. destruct (MAX_UINT256 <? ready); [done|].
        destruct (Z.ltb_spec T ready); [done|lia]. }
      split; [done|]. by apply transact_failure_step in Hfail.
    + unfold succeeds, step, call. simpl. rewrite Hout.
      destruct (MAX_UINT256 <? ready); [done|].
      destruct (Z.ltb_spec T ready); [done|].
      destruct (rdB (isBatchOpen s) b); [done|]. intros _. simpl.
      split; [done|]. split; [by eexists|].
      destruct s. simpl. rewrite rdZ_insert. by rewrite decide_True.
Qed.

End Gates.

(** ** Pausing *)

Section Pausing.

Context `{FHELib}.
Variable this : Z.

(** C8 (amended). While the contract is paused every submission and every
    decryption request fails without any effect and leaves the storage as
    it was: with [Paused] when the caller passes the access check that
    comes first (a provider, respectively the owner), and with
    [NotProvider], respectively [NotOwner], when it does not.  The callback
    carries no pause check: one that is not a replay, passes the batch
    check, matches the commitment, carries valid signatures and a payload
    of at least 32 bytes succeeds while the contract is paused. *)
Theorem paused_blocks_submissions_and_requests s env b u l requestId c p :
  paused s = true ->
  (transact this env (SubmitEncryptedComputeResource b u l) s
     = Failure (if rdB (isProvider s) (msg_sender env) then Paused else NotProvider) [] /\
   step this s (env, SubmitEncryptedComputeResource b u l) = s) /\
  (transact this env (RequestBatchDecryption b) s
     = Failure (if msg_sender env =? owner s then Paused else NotOwner) [] /\
   step this s (env, RequestBatchDecryption b) = s) /\
  (let ctx := rdC (decryptionContexts s) requestId in
   processed ctx = false ->
   rdB (isBatchOpen s) (batchId ctx) = true \/
     rdZ (batchTotalEncryptedComputeUnits s) (batchId ctx) <> 0 ->
   commitment this s (batchId ctx) = stateHash ctx ->
   FHE_checkSignatures requestId c p = true ->
   (32 <= length c)%nat ->
   succeeds this s (env, MyCallback requestId c p) = true /\
   paused (step this s (env, MyCallback requestId c p)) = true /\
   processed (rdC (decryptionContexts (step this s (env, MyCallback requestId c p)))
                requestId) = true).
Proof.
  intros Hpaused. split; [|split].
  - assert (Hfail : transact this env (SubmitEncryptedComputeResource b u l) s
      = Failure (if rdB (isProvider s) (msg_sender env) then Paused else NotProvider) []).
    { rewrite submit_outcome, Hpaused.
      by destruct (rdB (isProvider s) (msg_sender env)). }
    split; [done|]. by apply transact_failure_step in Hfail.
  - assert (Hfail : transact this env (RequestBatchDecryption b) s
      = Failure (if msg_sender env =? owner s then Paused else NotOwner) []).
    { rewrite request_outcome, Hpaused.
      by destruct (msg_sender env =? owner s). }
    split; [done|]. by apply transact_failure_step in Hfail.
  - intros ctx Hfresh Hgate Hhash Hsig Hlen.
    unfold succeeds, step. simpl. rewrite myCallback_outcome. fold ctx.
    unfold commitment in Hhash. rewrite Hfresh, Hhash, Z.eqb_refl, Hsig. simpl.
    assert (Hpass : negb (rdB (isBatchOpen s) (batchId ctx))
                    && (rdZ (batchTotalEncryptedComputeUnits s) (batchId ctx) =? 0)
                    = false).
    { destruct Hgate as [->|Hdata]; [done|].
      apply andb_false_iff. right. by apply Z.eqb_neq. }
    rewrite Hpass. unfold abi_decode_uint256.
    destruct (Nat.ltb_spec (length c) 32); [lia|].
    destruct s. simpl in *. rewrite rdC_insert, decide_True by done. done.
Qed.

(** C10 (amended). A callback for a [requestId] whose context is not
    processed and whose batch has a false flag and a zero compute-unit
    accumulator fails with [InvalidBatchId] before the hash is computed or
    the signatures are checked, and changes nothing.  In a reachable state
    a [requestId] without a stored context always fails so; and once a
    batch has been closed with a zero compute-unit accumulator, no
    callback for a context of that batch ever succeeds. *)
Theorem callback_rejects_empty_batch s env requestId c p :
  let ctx := rdC (decryptionContexts s) requestId in
  (processed ctx = false ->
   rdB (isBatchOpen s) (batchId ctx) = false ->
   rdZ (batchTotalEncryptedComputeUnits s) (batchId ctx) = 0 ->
   transact this env (MyCallback requestId c p) s = Failure InvalidBatchId [] /\
   step this s (env, MyCallback requestId c p) = s) /\
  (reachable this s ->
   decryptionContexts s !! requestId = None ->
   transact this env (MyCallback requestId c p) s = Failure InvalidBatchId []) /\
  (reachable this s ->
   forall env0 b txs,
   succeeds this s (env0, CloseBatch b) = true ->
   rdZ (batchTotalEncryptedComputeUnits s) b = 0 ->
   let s2 := exec this txs (step this s (env0, CloseBatch b)) in
   batchId (rdC (decryptionContexts s2) requestId) = b ->
   succeeds this s2 (env, MyCallback requestId c p) = false /\
   (processed (rdC (decryptionContexts s2) requestId) = false ->
    transact this env (MyCallback requestId c p) s2 = Failure InvalidBatchId [])).
Proof.
  intros ctx.
  assert (Hgate : forall s', processed (rdC (decryptionContexts s') requestId) = false ->
     rdB (isBatchOpen s') (batchId (rdC (decryptionContexts s') requestId)) = false ->
     rdZ (batchTotalEncryptedComputeUnits s')
         (batchId (rdC (decryptionContexts s') requestId)) = 0 ->
     transact this env (MyCallback requestId c p) s' = Failure InvalidBatchId []).
  { intros s' Hfresh Hclosed Hzero. rewrite myCallback_outcome.
    by rewrite Hfresh, Hclosed, Hzero. }
  split; [|split].
  - intros Hfresh Hclosed Hzero. split; [by apply Hgate|].
    by apply transact_failure_step with InvalidBatchId [], Hgate.
  - intros Hreach Habsent.
    pose proof (reachable_invariant this s Hreach) as Hinv.
    pose proof (rdC_absent _ _ Habsent) as Hempty.
    apply Hgate; rewrite Hempty; simpl; [done| |].
    + destruct (rdB (isBatchOpen s) 0) eqn:Hopen; [|done].
      apply (inv_open _ Hinv) in Hopen. lia.
    + apply (inv_fresh _ Hinv). lia.
  - intros Hreach env0 b txs Hclose Hzero s2 Hbatch.
    destruct (closeBatch_success this s env0 b Hclose) as (_ & Hopen & Hs1).
    pose proof (inv_open _ (reachable_invariant this s Hreach) b Hopen) as Hrange.
    destruct (closed_exec this txs (step this s (env0, CloseBatch b)) b)
      as (_ & Hclosed2 & Hcu2 & _).
    { rewrite Hs1. destruct s. simpl in *. lia. }
    { rewrite Hs1. destruct s. simpl. rewrite rdB_insert. by rewrite decide_True. }
    fold s2 in Hclosed2, Hcu2.
    assert (Hzero2 : rdZ (batchTotalEncryptedComputeUnits s2) b = 0).
    { rewrite Hcu2, Hs1. by destruct s. }
    destruct (processed (rdC (decryptionContexts s2) requestId)) eqn:Hdone.
    + split; [|done]. by apply replayed_callback_fails.
    + assert (Hfail : transact this env (MyCallback requestId c p) s2
                      = Failure InvalidBatchId []).
      { apply Hgate; [done| |]; by rewrite Hbatch. }
      split; [|done]. unfold succeeds. simpl. by rewrite Hfail.
Qed.

End Pausing.

(** ** The owner *)

Section Ownership.

Context `{FHELib}.
Variable this : Z.

Lemma transfer_denied s env a :
  msg_sender env <> owner s ->
  transact this env (TransferOwnership a) s = Failure NotOwner [].
Proof.
  intros Hno. tx_unfold. by destruct (Z.eqb_spec (msg_sender env) (owner s)).
Qed.

Lemma transfer_by_owner s env a :
  msg_sender env = owner s ->
  succeeds this s (env, TransferOwnership a) = true /\
  owner (step this s (env, TransferOwnership a)) = a.
Proof.
  intros Hown. unfold succeeds, step. simpl. tx_unfold. cbn [negb].
  rewrite Hown, Z.eqb_refl. by destruct s.
Qed.

Lemma owner_kept s env c :
  (forall a, c <> TransferOwnership a) -> owner (step this s (env, c)) = owner s.
Proof.
  intros Hc. unfold step. simpl.
  destruct s as [o ip p cd ls ld cb ib cu la dc cr ev].
  destruct c as [a| | | | | | | | |]; [by destruct (Hc a)|..];
    tx_unfold; simpl; repeat case_match; simplify_eq; done.
Qed.

Lemma owner_nonnull_step s ec :
  owner s <> 0 -> ec.2 <> TransferOwnership 0 -> owner (step this s ec) <> 0.
Proof.
  destruct ec as [env c]. simpl. intros Hnonnull Hc.
  destruct c as [a| | | | | | | | |]; try (rewrite owner_kept; done).
  destruct (Z.eqb_spec (msg_sender env) (owner s)) as [Hown|Hno].
  - destruct (transfer_by_owner s env a Hown) as [_ ->]. congruence.
  - by rewrite (transact_failure_step this _ _ _ _ _ (transfer_denied s env a Hno)).
Qed.

(** C6 (amended). The owner is the deployer after construction, so not
    null when the deployer is not.  [transferOwnership] fails with
    [NotOwner] for any caller but the owner, and for the owner it takes
    effect at once, whatever the new address is.  Every other call leaves
    the owner as it was; hence the owner stays non-null through every run
    of transactions without a transfer to the null address. *)
Theorem owner_changes_only_by_transfer deployer s env c newOwner txs :
  owner (constructor deployer) = deployer /\
  (msg_sender env <> owner s ->
     transact this env (TransferOwnership newOwner) s = Failure NotOwner [] /\
     step this s (env, TransferOwnership newOwner) = s) /\
  (msg_sender env = owner s ->
     succeeds this s (env, TransferOwnership newOwner) = true /\
     owner (step this s (env, TransferOwnership newOwner)) = newOwner) /\
  ((forall a, c <> TransferOwnership a) -> owner (step this s (env, c)) = owner s) /\
  (deployer <> 0 ->
   Forall (fun ec => ec.2 <> TransferOwnership 0) txs ->
   owner (exec this txs (constructor deployer)) <> 0).
Proof.
  split; [done|]. split; [|split; [|split]].
  - intros Hno. split; [by apply transfer_denied|].
    by apply transact_failure_step with NotOwner [], transfer_denied.
  - apply transfer_by_owner.
  - apply owner_kept.
  - intros Hdeployer Hrun.
    assert (Hgen : forall s0, owner s0 <> 0 -> owner (exec this txs s0) <> 0).
    { induction Hrun as [|ec txs Hec _ IH]; intros s0 Hs0; [done|].
      rewrite exec_cons. apply IH. by apply owner_nonnull_step. }
    by apply Hgen.
Qed.

End Ownership.


(** ** The theorems at work on the toy library *)

Lemma toy_reachable txs : Toy.can_reach (Toy.run txs (constructor 1)).
Proof. apply reachable_exec. constructor. lia. Qed.

(** The scenario of the specification, end to end: the callback with the
    plaintexts (17, 8) and a valid proof emits the totals of batch 1. *)
Example scenario_resolves :
  let s := Toy.run Toy.scenario (constructor 1) in
  let s1 := Toy.after s (Toy.at_time 9 20, MyCallback 0 Toy.payload Toy.good_proof) in
  Toy.ok s (Toy.at_time 9 20, MyCallback 0 Toy.payload Toy.good_proof) = true /\
  last (events s1) = Some (DecryptionCompleted 0 1 17 8).
Proof. split; vm_compute; reflexivity. Qed.

(** The scenario is resolved once; a second callback, after a further
    transaction, is a replay. *)
Lemma callback_resolves_once_witness :
  let s := Toy.run Toy.scenario (constructor 1) in
  let s1 := Toy.after s (Toy.at_time 9 20, MyCallback 0 Toy.payload Toy.good_proof) in
  Toy.ok s (Toy.at_time 9 20, MyCallback 0 Toy.payload Toy.good_proof) = true /\
  processed (rdC (decryptionContexts s1) 0) = true /\
  Toy.tx (Toy.at_time 9 22) (MyCallback 0 Toy.payload Toy.good_proof)
    (Toy.run [(Toy.at_time 1 21, OpenBatch)] s1) = Failure ReplayDetected [].
Proof.
  intros s s1.
  assert (Hok : Toy.ok s (Toy.at_time 9 20, MyCallback 0 Toy.payload Toy.good_proof) = true)
    by (vm_compute; reflexivity).
  destruct (@callback_resolves_once Toy.lib Toy.this s (Toy.at_time 9 20) 0
              Toy.payload Toy.good_proof (toy_reachable Toy.scenario) Hok)
    as (Hdone & Hreplay & _).
  split; [exact Hok|]. split; [exact Hdone|].
  apply (Hreplay [(Toy.at_time 1 21, OpenBatch)] (Toy.at_time 9 22)
           Toy.payload Toy.good_proof).
Defined.

(** A request made before the batch had data no longer matches once a
    submission has arrived. *)
Lemma callback_checks_commitment_witness :
  Toy.tx (Toy.at_time 9 20) (MyCallback 0 Toy.payload Toy.good_proof)
    (Toy.run Toy.early_request (constructor 1))
  = Failure StateMismatch [ECall (L_keccak256 [64; Toy.this; 2; 11; 6])].
Proof.
  destruct (@callback_checks_commitment Toy.lib Toy.this toy_nonzero_handles
              (Toy.run Toy.early_request (constructor 1)) (Toy.at_time 9 20) 0
              (mkContext 1 (Toy.hash [64; Toy.this; 2; 0; 0]) false)
              Toy.payload Toy.good_proof (toy_reachable Toy.early_request))
    as [Hdiff _].
  - vm_compute. reflexivity.
  - reflexivity.
  - destruct Hdiff as [Hfail _].
    + vm_compute. discriminate.
    + unfold Toy.tx. rewrite Hfail. vm_compute. reflexivity.
Defined.

(** Batch 1 is open: the request fails; the owner closes it: the request
    succeeds and is stored under id 0. *)
Lemma request_needs_closed_batch_witness :
  let s := Toy.run [(Toy.at_time 1 10, OpenBatch)] (constructor 1) in
  let s1 := Toy.after s (Toy.at_time 1 14, CloseBatch 1) in
  let s2 := Toy.after s1 (Toy.at_time 1 15, RequestBatchDecryption 1) in
  Toy.tx (Toy.at_time 1 15) (RequestBatchDecryption 1) s
    = Failure BatchClosedOrNonExistent [] /\
  Toy.ok s1 (Toy.at_time 1 15, RequestBatchDecryption 1) = true /\
  decryptionContexts s2 !! 0 = Some (mkContext 1 (Toy.hash [64; Toy.this; 2; 0; 0]) false).
Proof.
  intros s s1 s2.
  destruct (@request_needs_closed_batch Toy.lib Toy.this s (Toy.at_time 1 15)
              (Toy.at_time 1 14) 1) as (Hfail & _ & Hok & Hctx & _).
  - reflexivity.
  - reflexivity.
  - vm_compute. split; discriminate.
  - reflexivity.
  - vm_compute. reflexivity.
  - split; [exact Hfail|]. split; [exact Hok|]. exact Hctx.
Defined.

(** Batch 5 was never opened; the request for it succeeds all the same. *)
Lemma request_accepts_unopened_batch_witness :
  Toy.ok (constructor 1) (Toy.at_time 1 10, RequestBatchDecryption 5) = true /\
  decryptionContexts (Toy.after (constructor 1) (Toy.at_time 1 10, RequestBatchDecryption 5)) !! 0
    = Some (mkContext 5 (Toy.hash [64; Toy.this; 2; 0; 0]) false).
Proof.
  destruct (@request_accepts_unopened_batch Toy.lib Toy.this (constructor 1)
              (Toy.at_time 1 10) 5) as [Hany Hnew].
  - reflexivity.
  - reflexivity.
  - vm_compute. split; discriminate.
  - destruct Hnew as (_ & _ & _ & Hok & Hctx).
    + apply (toy_reachable []).
    + right. vm_compute. reflexivity.
    + split; [exact Hok|exact Hctx].
Defined.

(** Under a cooldown of 100 seconds a second submission 48 seconds after
    the first is refused; a decryption request, never made before, goes
    through and stamps its own clock. *)
Lemma cooldown_gate_witness :
  let s := Toy.run Toy.cooling_down (constructor 1) in
  Toy.tx (Toy.at_time 1 1050)
    (SubmitEncryptedComputeResource 2 (Toy.encrypt 1) (Toy.encrypt 1)) s
    = Failure CooldownActive [] /\
  rdZ (lastDecryptionRequestTime
         (Toy.after s (Toy.at_time 1 1050, RequestBatchDecryption 2))) 1 = 1050 /\
  rdZ (lastSubmissionTime
         (Toy.after s (Toy.at_time 1 1050, RequestBatchDecryption 2))) 1 = 1002.
Proof.
  intros s.
  destruct (@cooldown_gate Toy.lib Toy.this s (Toy.at_time 1 1050) 2
              (Toy.encrypt 1) (Toy.encrypt 1)) as [Hsubmit Hrequest].
  split; [|split].
  - destruct Hsubmit as [Hearly _]; [reflexivity|reflexivity|].
    destruct Hearly as [Hfail _]; [reflexivity|].
    unfold Toy.tx. rewrite Hfail. reflexivity.
  - destruct Hrequest as [_ Hok]; [reflexivity|reflexivity|].
    destruct Hok as (_ & _ & Hstamp & _); [vm_compute; reflexivity|].
    exact Hstamp.
  - destruct Hrequest as [_ Hok]; [reflexivity|reflexivity|].
    destruct Hok as (_ & _ & _ & Hkeep); [vm_compute; reflexivity|].
    unfold Toy.after. rewrite Hkeep. reflexivity.
Defined.

(** C5 as stated fails: with the cooldown at [2^256 - 1] the sum of the
    last submission time and the cooldown overflows; the provider's next
    call comes before that sum and fails, not with [CooldownActive] but
    with the overflow panic. *)
Lemma cooldown_error_counterexample :
  let s := Toy.run Toy.huge_cooldown (constructor 1) in
  let env := Toy.at_time 2 14 in
  rdB (isProvider s) (msg_sender env) = true /\
  paused s = false /\
  block_timestamp env < rdZ (lastSubmissionTime s) (msg_sender env) + cooldownSeconds s /\
  Toy.tx env (SubmitEncryptedComputeResource 1 (Toy.encrypt 1) (Toy.encrypt 1)) s
    = Failure ArithmeticOverflow [] /\
  Toy.tx env (SubmitEncryptedComputeResource 1 (Toy.encrypt 1) (Toy.encrypt 1)) s
    <> Failure CooldownActive [].
Proof.
  repeat split; try (vm_compute; reflexivity). vm_compute. discriminate.
Qed.

(** The owner hands the contract over; a stranger cannot; the scenario,
    which transfers nothing, leaves a non-null owner. *)
Lemma owner_changes_only_by_transfer_witness :
  owner (Toy.after (constructor 1) (Toy.at_time 1 10, TransferOwnership 5)) = 5 /\
  Toy.tx (Toy.at_time 7 10) (TransferOwnership 5) (constructor 1) = Failure NotOwner [] /\
  owner (Toy.run Toy.scenario (constructor 1)) <> 0.
Proof.
  destruct (@owner_changes_only_by_transfer Toy.lib Toy.this 1 (constructor 1)
              (Toy.at_time 1 10) (AddProvider 2) 5 Toy.scenario)
    as (_ & _ & Hgive & _ & Hkeep).
  destruct (@owner_changes_only_by_transfer Toy.lib Toy.this 1 (constructor 1)
              (Toy.at_time 7 10) (AddProvider 2) 5 Toy.scenario)
    as (_ & Hdeny & _).
  split; [|split].
  - apply Hgive. reflexivity.
  - apply Hdeny. vm_compute. discriminate.
  - apply Hkeep; [lia|]. repeat constructor; discriminate.
Defined.

(** C6 as stated fails: the owner can make the null address the owner. *)
Lemma null_owner_counterexample :
  let s := Toy.after (constructor 1) (Toy.at_time 1 10, TransferOwnership 0) in
  Toy.can_reach s /\
  Toy.ok (constructor 1) (Toy.at_time 1 10, TransferOwnership 0) = true /\
  owner s = 0.
Proof.
  split; [|split; reflexivity].
  apply (toy_reachable [(Toy.at_time 1 10, TransferOwnership 0)]).
Qed.

(** While the scenario is paused a provider's submission fails with
    [Paused], and the pending request is resolved all the same. *)
Lemma paused_blocks_submissions_and_requests_witness :
  let s := Toy.run Toy.paused_scenario (constructor 1) in
  let env := Toy.at_time 2 20 in
  paused s = true /\
  Toy.tx env (SubmitEncryptedComputeResource 1 (Toy.encrypt 1) (Toy.encrypt 1)) s
    = Failure Paused [] /\
  Toy.tx env (RequestBatchDecryption 1) s = Failure NotOwner [] /\
  Toy.ok s (env, MyCallback 0 Toy.payload Toy.good_proof) = true.
Proof.
  intros s env.
  assert (Hpaused : paused s = true) by reflexivity.
  destruct (@paused_blocks_submissions_and_requests Toy.lib Toy.this s env 1
              (Toy.encrypt 1) (Toy.encrypt 1) 0 Toy.payload Toy.good_proof Hpaused)
    as ([Hsubmit _] & [Hrequest _] & Hcallback).
  split; [exact Hpaused|]. split; [|split].
  - unfold Toy.tx. rewrite Hsubmit. reflexivity.
  - unfold Toy.tx. rewrite Hrequest. reflexivity.
  - apply Hcallback.
    + reflexivity.
    + right. vm_compute. discriminate.
    + vm_compute. reflexivity.
    + reflexivity.
    + vm_compute. lia.
Defined.

(** C8 as stated fails: while paused, a caller who is not a provider gets
    [NotProvider], and one who is not the owner gets [NotOwner]. *)
Lemma paused_error_counterexample :
  let s := Toy.run Toy.paused_scenario (constructor 1) in
  let env := Toy.at_time 9 20 in
  paused s = true /\
  Toy.tx env (SubmitEncryptedComputeResource 1 (Toy.encrypt 1) (Toy.encrypt 1)) s
    = Failure NotProvider [] /\
  Toy.tx env (SubmitEncryptedComputeResource 1 (Toy.encrypt 1) (Toy.encrypt 1)) s
    <> Failure Paused [] /\
  Toy.tx env (RequestBatchDecryption 1) s = Failure NotOwner [] /\
  Toy.tx env (RequestBatchDecryption 1) s <> Failure Paused [].
Proof.
  repeat split; try (vm_compute; reflexivity); vm_compute; discriminate.
Qed.

(** A request for a batch closed without submissions is rejected, now and
    after the fact. *)
Lemma callback_rejects_empty_batch_witness :
  let s0 := Toy.run [(Toy.at_time 1 10, OpenBatch)] (constructor 1) in
  let s := Toy.run Toy.empty_batch_request (constructor 1) in
  let env := Toy.at_time 9 20 in
  Toy.tx env (MyCallback 0 Toy.payload Toy.good_proof) s = Failure InvalidBatchId [] /\
  Toy.tx env (MyCallback 7 Toy.payload Toy.good_proof) s = Failure InvalidBatchId [] /\
  Toy.ok (Toy.run [(Toy.at_time 1 12, RequestBatchDecryption 1)]
            (Toy.after s0 (Toy.at_time 1 11, CloseBatch 1)))
         (env, MyCallback 0 Toy.payload Toy.good_proof) = false.
Proof.
  intros s0 s env.
  destruct (@callback_rejects_empty_batch Toy.lib Toy.this s env 0
              Toy.payload Toy.good_proof) as (Hgate & _ & _).
  destruct (@callback_rejects_empty_batch Toy.lib Toy.this s env 7
              Toy.payload Toy.good_proof) as (_ & Habsent & _).
  destruct (@callback_rejects_empty_batch Toy.lib Toy.this s0 env 0
              Toy.payload Toy.good_proof) as (_ & _ & Hnever).
  split; [|split].
  - apply Hgate; reflexivity.
  - apply Habsent; [apply toy_reachable|reflexivity].
  - apply (Hnever (toy_reachable _) (Toy.at_time 1 11) 1
             [(Toy.at_time 1 12, RequestBatchDecryption 1)]); reflexivity.
Defined.

(** C10 as stated fails: the request below was made before batch 1
    existed and resolved while the batch was open and empty; after the
    batch is closed its flag is false and its accumulator zero, and the
    callback fails with [ReplayDetected], not [InvalidBatchId]. *)
Lemma processed_first_counterexample :
  let s := Toy.run Toy.resolved_then_closed (constructor 1) in
  let ctx := rdC (decryptionContexts s) 0 in
  Toy.can_reach s /\
  decryptionContexts s !! 0 = Some ctx /\
  rdB (isBatchOpen s) (batchId ctx) = false /\
  rdZ (batchTotalEncryptedComputeUnits s) (batchId ctx) = 0 /\
  Toy.tx (Toy.at_time 9 20) (MyCallback 0 Toy.payload Toy.good_proof) s
    = Failure ReplayDetected [] /\
  Toy.tx (Toy.at_time 9 20) (MyCallback 0 Toy.payload Toy.good_proof) s
    <> Failure InvalidBatchId [].
Proof.
  split; [apply toy_reachable|].
  repeat split; try (vm_compute; reflexivity). vm_compute. discriminate.
Qed.

(** ** Homomorphic accumulation: what a submission adds *)

Section Accumulation.

Context `{FHELib}.
Variable this : Z.

(** C1 (code bug). The accumulators do not decrypt to the sums of the
    submitted plaintexts.  [submitEncryptedComputeResource] adds the input
    to [FHE.asEuint32] of the stored accumulator word, and [FHE.asEuint32]
    encrypts the number it is given: after a successful submission each
    accumulator of the batch decrypts to the submitted plaintext plus the
    stored word itself, the handle of the previous total, modulo [2^32],
    and not to the submitted plaintext plus the previous total. *)
Theorem submission_adds_stored_word (decrypt : Z -> Z) s env b u l :
  FHESemantics decrypt ->
  succeeds this s (env, SubmitEncryptedComputeResource b u l) = true ->
  let s1 := step this s (env, SubmitEncryptedComputeResource b u l) in
  decrypt (rdZ (batchTotalEncryptedComputeUnits s1) b)
    = (decrypt u + rdZ (batchTotalEncryptedComputeUnits s) b) mod MOD32 /\
  decrypt (rdZ (batchTotalEncryptedLendAmounts s1) b)
    = (decrypt l + rdZ (batchTotalEncryptedLendAmounts s) b) mod MOD32.
Proof.
  intros Hsem. unfold succeeds, step. cbn [fst snd]. rewrite submit_outcome.
  destruct s as [o ip p cd ls ld cb ib cu la dc cr ev].
  cbn [isProvider paused lastSubmissionTime cooldownSeconds isBatchOpen
       batchTotalEncryptedComputeUnits batchTotalEncryptedLendAmounts].
  repeat case_match; simplify_eq; try done. intros _.
  cbn [apply_write log_event batchTotalEncryptedComputeUnits
       batchTotalEncryptedLendAmounts].
  rewrite !rdZ_insert, !decide_True by done.
  rewrite !(decrypt_add decrypt Hsem), !(decrypt_asEuint32 decrypt Hsem).
  by rewrite !Zplus_mod_idemp_r.
Qed.

End Accumulation.

Lemma toy_encrypting_semantics : @FHESemantics Toy.encrypting_lib Toy.decrypt.
Proof.
  split.
  - intros h. unfold Toy.decrypt. destruct (h =? 0); [done|].
    apply Z.mod_pos_bound. done.
  - intros v. simpl. apply toy_decrypt_encrypt.
  - intros a b. simpl. apply toy_decrypt_encrypt.
Qed.

(** The scenario of the specification.  The first submission leaves the
    handle of 10, which is the word 11; the second adds 7 to that word:
    the totals decrypt to 18 and 9 where 17 and 8 were submitted. *)
Lemma submission_adds_stored_word_witness :
  let s := @exec Toy.encrypting_lib Toy.this (take 4 Toy.scenario) (constructor 1) in
  let s1 := @step Toy.encrypting_lib Toy.this s
              (Toy.at_time 3 13,
               SubmitEncryptedComputeResource 1 (Toy.encrypt 7) (Toy.encrypt 3)) in
  Toy.decrypt (rdZ (batchTotalEncryptedComputeUnits s) 1) = 10 /\
  Toy.decrypt (rdZ (batchTotalEncryptedLendAmounts s) 1) = 5 /\
  Toy.decrypt (Toy.encrypt 7) = 7 /\
  Toy.decrypt (Toy.encrypt 3) = 3 /\
  Toy.decrypt (rdZ (batchTotalEncryptedComputeUnits s1) 1) = 18 /\
  Toy.decrypt (rdZ (batchTotalEncryptedLendAmounts s1) 1) = 9.
Proof.
  intros s s1.
  destruct (@submission_adds_stored_word Toy.encrypting_lib Toy.this Toy.decrypt s
              (Toy.at_time 3 13) 1 (Toy.encrypt 7) (Toy.encrypt 3)
              toy_encrypting_semantics) as [Hu Hl]; [reflexivity|].
  do 4 (split; [reflexivity|]). split.
  - unfold s1. rewrite Hu. reflexivity.
  - unfold s1. rewrite Hl. reflexivity.
Defined.

(** The whole scenario, run on the encrypting library: both submissions
    succeed, their plaintexts sum to 17 and 8, and the accumulators of
    batch 1 decrypt to 18 and 9. *)
Lemma scenario_sums_not_exact :
  let s := @exec Toy.encrypting_lib Toy.this Toy.scenario (constructor 1) in
  let subs := @submissions Toy.encrypting_lib Toy.this 1 Toy.scenario (constructor 1) in
  subs = [(Toy.encrypt 10, Toy.encrypt 5); (Toy.encrypt 7, Toy.encrypt 3)] /\
  units_sum Toy.decrypt subs = 17 /\
  lends_sum Toy.decrypt subs = 8 /\
  Toy.decrypt (rdZ (batchTotalEncryptedComputeUnits s) 1) = 18 /\
  Toy.decrypt (rdZ (batchTotalEncryptedLendAmounts s) 1) = 9 /\
  ~ @exact_sums Toy.encrypting_lib Toy.this Toy.decrypt 1 Toy.scenario (constructor 1).
Proof.
  repeat split; try (vm_compute; reflexivity).
  intros [Hu _]. vm_compute in Hu. discriminate.
Qed.

(** * Further properties *)

(** ** The administrative entry points, check by check *)

Section Administration.

Context `{FHELib}.
Variable this : Z.

Lemma transferOwnership_outcome s env a :
  transact this env (TransferOwnership a) s =
    if negb (msg_sender env =? owner s) then Failure NotOwner []
    else Success (log_event (OwnershipTransferred (owner s) a) (apply_write (W_owner a) s))
           [EStore (W_owner a); EEmit (OwnershipTransferred (owner s) a)].
Proof.
  unfold transact, dispatch, transferOwnership, onlyOwner, bind, get, revert_if.
  by destruct (negb (msg_sender env =? owner s)).
Qed.

Lemma addProvider_outcome s env p :
  transact this env (AddProvider p) s =
    if negb (msg_sender env =? owner s) then Failure NotOwner []
    else if rdB (isProvider s) p then Success s []
    else Success (log_event (ProviderAdded p) (apply_write (W_isProvider p true) s))
           [EStore (W_isProvider p true); EEmit (ProviderAdded p)].
Proof.
  unfold transact, dispatch, addProvider, onlyOwner, bind, get, revert_if.
  destruct (negb (msg_sender env =? owner s)); [done|]. simpl.
  by destruct (rdB (isProvider s) p).
Qed.

Lemma removeProvider_outcome s env p :
  transact this env (RemoveProvider p) s =
    if negb (msg_sender env =? owner s) then Failure NotOwner []
    else if rdB (isProvider s) p
    then Success (log_event (ProviderRemoved p) (apply_write (W_isProvider p false) s))
           [EStore (W_isProvider p false); EEmit (ProviderRemoved p)]
    else Success s [].
Proof.
  unfold transact, dispatch, removeProvider, onlyOwner, bind, get, revert_if.
  destruct (negb (msg_sender env =? owner s)); [done|]. simpl.
  by destruct (rdB (isProvider s) p).
Qed.

Lemma setPaused_outcome s env v :
  transact this env (SetPaused v) s =
    if negb (msg_sender env =? owner s) then Failure NotOwner []
    else Success (log_event (PauseToggled v) (apply_write (W_paused v) s))
           [EStore (W_paused v); EEmit (PauseToggled v)].
Proof.
  unfold transact, dispatch, setPaused, onlyOwner, bind, get, revert_if.
  by destruct (negb (msg_sender env =? owner s)).
Qed.

Lemma setCooldownSeconds_outcome s env v :
  transact this env (SetCooldownSeconds v) s =
    if negb (msg_sender env =? owner s) then Failure NotOwner []
    else Success (log_event (CooldownSecondsSet (cooldownSeconds s) v)
                    (apply_write (W_cooldownSeconds v) s))
           [EStore (W_cooldownSeconds v);
            EEmit (CooldownSecondsSet (cooldownSeconds s) v)].
Proof.
  unfold transact, dispatch, setCooldownSeconds, onlyOwner, bind, get, revert_if.
  by destruct (negb (msg_sender env =? owner s)).
Qed.

Lemma openBatch_outcome s env :
  let next := currentBatchId s + 1 in
  transact this env OpenBatch s =
    if negb (msg_sender env =? owner s) then Failure NotOwner []
    else if paused s then Failure Paused []
    else if MAX_UINT256 <? next then Failure ArithmeticOverflow []
    else Success (log_event (BatchOpened next)
                    (apply_write (W_isBatchOpen next true)
                       (apply_write (W_currentBatchId next) s)))
           [EStore (W_currentBatchId next); EStore (W_isBatchOpen next true);
            EEmit (BatchOpened next)].
Proof.
  intros next. subst next. destruct s as [o ip p cd ls ld cb ib cu la dc cr ev].
  unfold transact, dispatch, openBatch, onlyOwner, whenNotPaused, checked_add,
    bind, get, revert_if. simpl.
  destruct (negb (msg_sender env =? o)); [done|]. simpl.
  destruct p; [done|]. simpl.
  by destruct (MAX_UINT256 <? cb + 1).
Qed.

Lemma closeBatch_outcome s env b :
  transact this env (CloseBatch b) s =
    if negb (msg_sender env =? owner s) then Failure NotOwner []
    else if negb (rdB (isBatchOpen s) b) then Failure BatchClosedOrNonExistent []
    else Success (log_event (BatchClosed b) (apply_write (W_isBatchOpen b false) s))
           [EStore (W_isBatchOpen b false); EEmit (BatchClosed b)].
Proof.
  unfold transact, dispatch, closeBatch, onlyOwner, bind, get, revert_if.
  destruct (negb (msg_sender env =? owner s)); [done|]. simpl.
  by destruct (negb (rdB (isBatchOpen s) b)).
Qed.

End Administration.

(** Bring a call into its checked form. *)
Ltac outcome :=
  rewrite ?transferOwnership_outcome, ?addProvider_outcome, ?removeProvider_outcome,
    ?setPaused_outcome, ?setCooldownSeconds_outcome, ?openBatch_outcome,
    ?closeBatch_outcome, ?submit_outcome, ?request_outcome, ?myCallback_outcome.

(** Split a transaction into the cases of its checked form. *)
Ltac step_cases s c :=
  destruct c; unfold step, succeeds; cbn [fst snd]; outcome;
  destruct s as [?o ?ip ?p ?cd ?ls ?ld ?cb ?ib ?cu ?la ?dc ?cr ?ev];
  cbn [owner isProvider paused cooldownSeconds lastSubmissionTime
       lastDecryptionRequestTime currentBatchId isBatchOpen
       batchTotalEncryptedComputeUnits batchTotalEncryptedLendAmounts
       decryptionContexts counterRequest events];
  repeat case_match; simplify_eq;
  cbn [apply_write log_event owner isProvider paused cooldownSeconds
       lastSubmissionTime lastDecryptionRequestTime currentBatchId isBatchOpen
       batchTotalEncryptedComputeUnits batchTotalEncryptedLendAmounts
       decryptionContexts counterRequest events] in *.

Section Access.

Context `{FHELib}.
Variable this : Z.

(** X1. Every entry point guarded by [onlyOwner] fails with [NotOwner],
    without effect, for any sender but the owner; and a sender who is
    neither the owner nor a provider changes the storage through no call
    but [myCallback]. *)
Theorem only_owner_administers s env c :
  msg_sender env <> owner s ->
  (is_admin c = true ->
     transact this env c s = Failure NotOwner [] /\
     step this s (env, c) = s) /\
  (rdB (isProvider s) (msg_sender env) = false ->
   (forall id cl p, c <> MyCallback id cl p) ->
   step this s (env, c) = s).
Proof.
  intros Hno.
  assert (Hneq : negb (msg_sender env =? owner s) = true)
    by (apply negb_true_iff; by apply Z.eqb_neq).
  assert (Hadmin : is_admin c = true -> transact this env c s = Failure NotOwner []).
  { destruct c; simpl; try done; intros _; outcome; by rewrite Hneq. }
  split.
  - intros Hc. split; [by apply Hadmin|].
    by apply transact_failure_step with NotOwner [], Hadmin.
  - intros Hnp Hc. destruct (is_admin c) eqn:Hkind.
    + by apply transact_failure_step with NotOwner [], Hadmin.
    + destruct c; try done.
      * apply transact_failure_step with NotProvider []. rewrite submit_outcome.
        by rewrite Hnp.
      * by destruct (Hc requestId cleartexts proof).
Qed.

(** X2. [addProvider] by the owner always succeeds and makes the address a
    provider, leaving every other address as it was; on an address that is
    a provider already it writes nothing and emits nothing. *)
Theorem addProvider_idempotent s env env' p :
  msg_sender env = owner s ->
  msg_sender env' = owner s ->
  let s1 := step this s (env, AddProvider p) in
  succeeds this s (env, AddProvider p) = true /\
  rdB (isProvider s1) p = true /\
  (forall q, q <> p -> rdB (isProvider s1) q = rdB (isProvider s) q) /\
  owner s1 = owner s /\
  transact this env' (AddProvider p) s1 = Success s1 [].
Proof.
  intros Hown Hown' s1.
  assert (Hs1 : succeeds this s (env, AddProvider p) = true /\
                rdB (isProvider s1) p = true /\
                (forall q, q <> p -> rdB (isProvider s1) q = rdB (isProvider s) q) /\
                owner s1 = owner s).
  { unfold s1, succeeds, step. simpl. rewrite addProvider_outcome.
    rewrite Hown, Z.eqb_refl. simpl.
    destruct (rdB (isProvider s) p) eqn:Hp; [done|].
    destruct s. simpl. rewrite rdB_insert, decide_True by done.
    repeat split; try done. intros q Hq. rewrite rdB_insert. by rewrite decide_False. }
  destruct Hs1 as (Hok & Hp & Hothers & Howner).
  repeat split; try done.
  rewrite addProvider_outcome, Howner, Hown', Z.eqb_refl, Hp. done.
Qed.

(** X3. [removeProvider] by the owner always succeeds and leaves the
    address a non-provider, every other address as it was; on an address
    that is no provider it writes nothing and emits nothing. *)
Theorem removeProvider_idempotent s env env' p :
  msg_sender env = owner s ->
  msg_sender env' = owner s ->
  let s1 := step this s (env, RemoveProvider p) in
  succeeds this s (env, RemoveProvider p) = true /\
  rdB (isProvider s1) p = false /\
  (forall q, q <> p -> rdB (isProvider s1) q = rdB (isProvider s) q) /\
  owner s1 = owner s /\
  transact this env' (RemoveProvider p) s1 = Success s1 [].
Proof.
  intros Hown Hown' s1.
  assert (Hs1 : succeeds this s (env, RemoveProvider p) = true /\
                rdB (isProvider s1) p = false /\
                (forall q, q <> p -> rdB (isProvider s1) q = rdB (isProvider s) q) /\
                owner s1 = owner s).
  { unfold s1, succeeds, step. simpl. rewrite removeProvider_outcome.
    rewrite Hown, Z.eqb_refl. simpl.
    destruct (rdB (isProvider s) p) eqn:Hp; [|done].
    destruct s. simpl. rewrite rdB_insert, decide_True by done.
    repeat split; try done. intros q Hq. rewrite rdB_insert. by rewrite decide_False. }
  destruct Hs1 as (Hok & Hp & Hothers & Howner).
  repeat split; try done.
  rewrite removeProvider_outcome, Howner, Hown', Z.eqb_refl, Hp. done.
Qed.



End Access.

Section Lifecycle.

Context `{FHELib}.
Variable this : Z.

Lemma paused_step s ec :
  paused s = true ->
  ec.2 <> SetPaused false ->
  paused (step this s ec) = true /\
  currentBatchId (step this s ec) = currentBatchId s /\
  batchTotalEncryptedComputeUnits (step this s ec) = batchTotalEncryptedComputeUnits s /\
  batchTotalEncryptedLendAmounts (step this s ec) = batchTotalEncryptedLendAmounts s /\
  lastSubmissionTime (step this s ec) = lastSubmissionTime s /\
  lastDecryptionRequestTime (step this s ec) = lastDecryptionRequestTime s /\
  counterRequest (step this s ec) = counterRequest s /\
  (forall b, rdB (isBatchOpen (step this s ec)) b = true -> rdB (isBatchOpen s) b = true).
Proof.
  destruct ec as [env c]. simpl. intros Hpaused Hc.
  step_cases s c; try done.
  all: repeat split; try done.
  - (* setPaused: it is not an unpause *) destruct flag; congruence.
  - (* closeBatch *) intros b. rewrite rdB_insert. by case_decide.
Qed.

(** X5. While the contract is paused, and for as long as it is not
    unpaused, no batch is opened, no accumulator and no cooldown clock
    changes and no decryption request is issued, whatever is called; a
    batch flag can only go from open to closed. *)
Theorem pause_freezes_batches s txs :
  paused s = true ->
  Forall (fun ec => ec.2 <> SetPaused false) txs ->
  let s' := exec this txs s in
  paused s' = true /\
  currentBatchId s' = currentBatchId s /\
  batchTotalEncryptedComputeUnits s' = batchTotalEncryptedComputeUnits s /\
  batchTotalEncryptedLendAmounts s' = batchTotalEncryptedLendAmounts s /\
  lastSubmissionTime s' = lastSubmissionTime s /\
  lastDecryptionRequestTime s' = lastDecryptionRequestTime s /\
  counterRequest s' = counterRequest s /\
  (forall b, rdB (isBatchOpen s') b = true -> rdB (isBatchOpen s) b = true).
Proof.
  intros Hpaused Hrun. cbv zeta. revert s Hpaused.
  induction Hrun as [|ec txs Hec _ IH]; intros s Hpaused; [done|].
  rewrite exec_cons.
  destruct (paused_step s ec Hpaused Hec)
    as (Hp & Hcb & Hcu & Hla & Hls & Hld & Hcr & Hopen).
  destruct (IH _ Hp) as (Hp' & Hcb' & Hcu' & Hla' & Hls' & Hld' & Hcr' & Hopen').
  rewrite Hcb', Hcu', Hla', Hls', Hld', Hcr'. repeat split; auto.
Qed.

(** X6. [closeBatch] carries no pause check: while the contract is paused
    the owner cannot open a batch, which fails with [Paused], but closes an
    open one as usual. *)
Theorem paused_owner_can_close s env b :
  paused s = true ->
  msg_sender env = owner s ->
  transact this env OpenBatch s = Failure Paused [] /\
  (rdB (isBatchOpen s) b = true ->
     succeeds this s (env, CloseBatch b) = true /\
     rdB (isBatchOpen (step this s (env, CloseBatch b))) b = false /\
     paused (step this s (env, CloseBatch b)) = true).
Proof.
  intros Hpaused Hown. split.
  - rewrite openBatch_outcome, Hown, Z.eqb_refl, Hpaused. done.
  - intros Hopen. unfold succeeds, step. simpl.
    rewrite closeBatch_outcome, Hown, Z.eqb_refl, Hopen. simpl.
    destruct s. simpl in *. rewrite rdB_insert, decide_True by done. done.
Qed.

Lemma currentBatchId_step s ec :
  currentBatchId (step this s ec) =
    match ec.2 with
    | OpenBatch => if succeeds this s ec then currentBatchId s + 1 else currentBatchId s
    | _ => currentBatchId s
    end.
Proof.
  destruct ec as [env c]. simpl. step_cases s c; done.
Qed.

(** X7. Batch ids are handed out in sequence: after any run from the
    constructor [currentBatchId] is the number of [openBatch] calls that
    succeeded, and every open batch has an id between 1 and that number. *)
Theorem batch_ids_sequential deployer txs :
  let s := exec this txs (constructor deployer) in
  currentBatchId s = Z.of_nat (opened this txs (constructor deployer)) /\
  (forall b, rdB (isBatchOpen s) b = true ->
     1 <= b <= Z.of_nat (opened this txs (constructor deployer))).
Proof.
  intros s.
  assert (Hcount : forall s0,
    currentBatchId (exec this txs s0) = currentBatchId s0 + Z.of_nat (opened this txs s0)).
  { induction txs as [|ec txs IH]; intros s0; [simpl; lia|].
    rewrite exec_cons, IH, currentBatchId_step. simpl.
    destruct ec as [env c]. destruct c; simpl; try lia.
    destruct (succeeds this s0 (env, OpenBatch)); lia. }
  assert (Hcb : currentBatchId s = Z.of_nat (opened this txs (constructor deployer))).
  { unfold s. rewrite Hcount. simpl. lia. }
  split; [done|]. intros b Hopen. rewrite <- Hcb.
  assert (Hinv : invariant s).
  { unfold s. clear. revert deployer.
    assert (forall s0, invariant s0 -> invariant (exec this txs s0)) as Hgen.
    { induction txs as [|ec txs IH]; intros s0 Hs0; [done|].
      rewrite exec_cons. apply IH. by apply invariant_step. }
    intros d. apply Hgen, invariant_constructor. }
  by apply (inv_open s Hinv).
Qed.

(** X8. Batch 0 and the ids above [currentBatchId] are no batches: in a
    reachable state they are not open, hold no accumulators, and every
    submission to them and every attempt to close them fails. *)
Theorem unallocated_batch_rejects s env b u l :
  reachable this s ->
  b <= 0 \/ currentBatchId s < b ->
  rdB (isBatchOpen s) b = false /\
  rdZ (batchTotalEncryptedComputeUnits s) b = 0 /\
  rdZ (batchTotalEncryptedLendAmounts s) b = 0 /\
  succeeds this s (env, SubmitEncryptedComputeResource b u l) = false /\
  succeeds this s (env, CloseBatch b) = false.
Proof.
  intros Hreach Hb.
  pose proof (reachable_invariant this s Hreach) as Hinv.
  assert (Hclosed : rdB (isBatchOpen s) b = false).
  { destruct (rdB (isBatchOpen s) b) eqn:Hopen; [|done].
    apply (inv_open s Hinv) in Hopen. lia. }
  destruct (inv_fresh s Hinv b Hb) as [Hu Hl].
  repeat split; try done; unfold succeeds; simpl.
  - rewrite submit_outcome, Hclosed. simpl. by repeat case_match.
  - rewrite closeBatch_outcome, Hclosed. simpl. by repeat case_match.
Qed.

Lemma accumulators_step s ec b :
  rdZ (batchTotalEncryptedComputeUnits (step this s ec)) b =
    match ec.2 with
    | SubmitEncryptedComputeResource b' u l =>
      if succeeds this s ec && (b' =? b)
      then FHE_add u (FHE_asEuint32 (rdZ (batchTotalEncryptedComputeUnits s) b))
      else rdZ (batchTotalEncryptedComputeUnits s) b
    | _ => rdZ (batchTotalEncryptedComputeUnits s) b
    end /\
  rdZ (batchTotalEncryptedLendAmounts (step this s ec)) b =
    match ec.2 with
    | SubmitEncryptedComputeResource b' u l =>
      if succeeds this s ec && (b' =? b)
      then FHE_add l (FHE_asEuint32 (rdZ (batchTotalEncryptedLendAmounts s) b))
      else rdZ (batchTotalEncryptedLendAmounts s) b
    | _ => rdZ (batchTotalEncryptedLendAmounts s) b
    end.
Proof.
  destruct ec as [env c]. simpl. step_cases s c; try done.
  all: rewrite ?rdZ_insert; repeat case_decide; subst; try done.
  all: cbn [andb] in *.
  all: try match goal with
           | Hb : (_ =? _) = true |- _ => apply Z.eqb_eq in Hb; done
           | Hb : (_ =? _) = false |- _ => apply Z.eqb_neq in Hb; done
           end.
Qed.

(** X9. The accumulators of a batch change through successful submissions
    to that batch and through nothing else: over a run without one they
    are what they were. *)
Theorem accumulators_change_only_by_submissions b txs s :
  submissions this b txs s = [] ->
  rdZ (batchTotalEncryptedComputeUnits (exec this txs s)) b
    = rdZ (batchTotalEncryptedComputeUnits s) b /\
  rdZ (batchTotalEncryptedLendAmounts (exec this txs s)) b
    = rdZ (batchTotalEncryptedLendAmounts s) b.
Proof.
  revert s. induction txs as [|ec txs IH]; intros s Hnone; [done|].
  rewrite exec_cons. rewrite submissions_cons in Hnone.
  destruct (accumulators_step s ec b) as [Hu Hl].
  destruct ec as [env c]. simpl in *.
  destruct c; try (destruct (IH _ Hnone) as [-> ->]; by rewrite Hu, Hl).
  destruct (succeeds this s _ && (batch =? b)); [done|].
  destruct (IH _ Hnone) as [-> ->]. by rewrite Hu, Hl.
Qed.

End Lifecycle.

Section Data.

Context `{FHELib}.
Variable this : Z.

Lemma units_zero_exec (handles : nonzero_handles) b txs : forall s,
  (rdZ (batchTotalEncryptedComputeUnits (exec this txs s)) b = 0 <->
   rdZ (batchTotalEncryptedComputeUnits s) b = 0 /\ submissions this b txs s = []) /\
  (rdZ (batchTotalEncryptedLendAmounts (exec this txs s)) b = 0 <->
   rdZ (batchTotalEncryptedLendAmounts s) b = 0 /\ submissions this b txs s = []).
Proof.
  induction txs as [|ec txs IH]; intros s; [simpl; tauto|].
  rewrite exec_cons, submissions_cons.
  destruct (IH (step this s ec)) as [IHu IHl]. rewrite IHu, IHl.
  destruct (accumulators_step this s ec b) as [Hu Hl]. rewrite Hu, Hl.
  destruct ec as [env c]. simpl.
  destruct c; try done.
  destruct (succeeds this s _ && (batch =? b)); [|done].
  pose proof (handles encryptedComputeUnits
                (FHE_asEuint32 (rdZ (batchTotalEncryptedComputeUnits s) b))).
  pose proof (handles encryptedLendAmount
                (FHE_asEuint32 (rdZ (batchTotalEncryptedLendAmounts s) b))).
  split; split; try tauto; intros [_ [=]].
Qed.

(** X10. When the library never hands out the zero handle, a zero
    accumulator means exactly what [myCallback] takes it to mean: after any
    run from the constructor the compute-unit accumulator of a batch, and
    likewise its lend accumulator, is zero if and only if no submission to
    the batch has succeeded. *)
Theorem zero_accumulator_iff_no_submission deployer txs b :
  nonzero_handles ->
  let s := exec this txs (constructor deployer) in
  (rdZ (batchTotalEncryptedComputeUnits s) b = 0 <->
   submissions this b txs (constructor deployer) = []) /\
  (rdZ (batchTotalEncryptedLendAmounts s) b = 0 <->
   submissions this b txs (constructor deployer) = []).
Proof.
  intros handles s.
  destruct (units_zero_exec handles b txs (constructor deployer)) as [Hu Hl].
  fold s in Hu, Hl. rewrite Hu, Hl. simpl. unfold rdZ. rewrite lookup_empty. simpl.
  tauto.
Qed.

Lemma closed_no_submissions b txs : forall s,
  b <= currentBatchId s ->
  rdB (isBatchOpen s) b = false ->
  submissions this b txs s = [].
Proof.
  induction txs as [|ec txs IH]; intros s Hle Hclosed; [done|].
  rewrite submissions_cons.
  destruct (closed_step this s ec b Hle Hclosed) as (Hle' & Hclosed' & _).
  rewrite (IH _ Hle' Hclosed').
  destruct ec as [env c]. simpl. destruct c; try done.
  destruct (Z.eqb_spec batch b) as [->|_]; rewrite ?andb_false_r; [|done].
  unfold succeeds. simpl. rewrite submit_outcome, Hclosed. simpl.
  by repeat case_match.
Qed.

(** X11. Closing ends the intake of a batch for good: after a successful
    [closeBatch] in a reachable state no submission to the batch ever
    succeeds again and its two accumulators stay what they were when it
    was closed. *)
Theorem closed_batch_is_frozen s env b txs env' u l :
  reachable this s ->
  succeeds this s (env, CloseBatch b) = true ->
  let s2 := exec this txs (step this s (env, CloseBatch b)) in
  submissions this b txs (step this s (env, CloseBatch b)) = [] /\
  succeeds this s2 (env', SubmitEncryptedComputeResource b u l) = false /\
  rdZ (batchTotalEncryptedComputeUnits s2) b = rdZ (batchTotalEncryptedComputeUnits s) b /\
  rdZ (batchTotalEncryptedLendAmounts s2) b = rdZ (batchTotalEncryptedLendAmounts s) b.
Proof.
  intros Hreach Hclose s2.
  destruct (closeBatch_success this s env b Hclose) as (_ & Hopen & Hs1).
  pose proof (inv_open _ (reachable_invariant this s Hreach) b Hopen) as Hrange.
  assert (Hle1 : b <= currentBatchId (step this s (env, CloseBatch b))).
  { rewrite Hs1. destruct s. simpl in *. lia. }
  assert (Hclosed1 : rdB (isBatchOpen (step this s (env, CloseBatch b))) b = false).
  { rewrite Hs1. destruct s. simpl. rewrite rdB_insert. by rewrite decide_True. }
  destruct (closed_exec this txs _ b Hle1 Hclosed1) as (_ & Hclosed2 & Hcu & Hla).
  fold s2 in Hclosed2, Hcu, Hla.
  split; [by apply closed_no_submissions|]. split; [|split].
  - unfold succeeds. simpl. rewrite submit_outcome, Hclosed2. simpl.
    by repeat case_match.
  - rewrite Hcu, Hs1. by destruct s.
  - rewrite Hla, Hs1. by destruct s.
Qed.

End Data.

Section Requests.

Context `{FHELib}.
Variable this : Z.

(** The batch and the commitment of a stored context never change. *)
Lemma context_kept_step s ec id ctx :
  invariant s ->
  decryptionContexts s !! id = Some ctx ->
  exists ctx', decryptionContexts (step this s ec) !! id = Some ctx' /\
               batchId ctx' = batchId ctx /\ stateHash ctx' = stateHash ctx.
Proof.
  intros Hinv Hstored. destruct ec as [env c].
  pose proof (inv_unissued s Hinv (counterRequest s)) as Hfresh.
  step_cases s c; try (by exists ctx).
  - (* requestBatchDecryption *)
    exists ctx. split; [|done]. rewrite lookup_insert_ne; [done|].
    intros <-. rewrite Hfresh in Hstored; [done|lia].
  - (* myCallback *)
    destruct (decide (requestId = id)) as [->|Hne].
    + eexists. split; [apply lookup_insert_eq|].
      simpl. unfold rdC. by rewrite Hstored.
    + exists ctx. by rewrite lookup_insert_ne.
Qed.

Lemma context_kept_exec txs : forall s id ctx,
  reachable this s ->
  decryptionContexts s !! id = Some ctx ->
  exists ctx', decryptionContexts (exec this txs s) !! id = Some ctx' /\
               batchId ctx' = batchId ctx /\ stateHash ctx' = stateHash ctx.
Proof.
  induction txs as [|ec txs IH]; intros s id ctx Hreach Hstored; [by exists ctx|].
  rewrite exec_cons.
  destruct (context_kept_step s ec id ctx (reachable_invariant this s Hreach) Hstored)
    as (ctx1 & Hstored1 & Hb1 & Hh1).
  destruct (IH (step this s ec) id ctx1 (reachable_step this s ec Hreach) Hstored1)
    as (ctx2 & Hstored2 & Hb2 & Hh2).
  exists ctx2. split; [done|]. split; congruence.
Qed.

(** What a successful request stored. *)
Lemma request_success s env b :
  succeeds this s (env, RequestBatchDecryption b) = true ->
  rdB (isBatchOpen s) b = false /\
  decryptionContexts (step this s (env, RequestBatchDecryption b)) !! counterRequest s
    = Some (mkContext b (commitment this s b) false) /\
  currentBatchId (step this s (env, RequestBatchDecryption b)) = currentBatchId s /\
  isBatchOpen (step this s (env, RequestBatchDecryption b)) = isBatchOpen s /\
  batchTotalEncryptedComputeUnits (step this s (env, RequestBatchDecryption b))
    = batchTotalEncryptedComputeUnits s /\
  batchTotalEncryptedLendAmounts (step this s (env, RequestBatchDecryption b))
    = batchTotalEncryptedLendAmounts s.
Proof.
  unfold succeeds, step, commitment. cbn [fst snd]. rewrite request_outcome.
  destruct s as [o ip p cd ls ld cb ib cu la dc cr ev].
  cbn [owner paused cooldownSeconds lastDecryptionRequestTime isBatchOpen
       batchTotalEncryptedComputeUnits batchTotalEncryptedLendAmounts counterRequest].
  repeat case_match; simplify_eq; try done. intros _.
  cbn [apply_write log_event decryptionContexts currentBatchId isBatchOpen
       batchTotalEncryptedComputeUnits batchTotalEncryptedLendAmounts].
  split; [done|]. split; [apply lookup_insert_eq|done].
Qed.

(** X12. A request made for a batch that has been closed never meets
    [StateMismatch]: in a reachable state, after a successful request for a
    batch with a handed-out id and a false flag, the commitment stored for
    the request equals the hash of the batch's accumulators in every later
    state, so no callback for that request fails with [StateMismatch]. *)
Theorem no_mismatch_after_close s env b txs env' c p :
  reachable this s ->
  b <= currentBatchId s ->
  succeeds this s (env, RequestBatchDecryption b) = true ->
  let requestId := counterRequest s in
  let s2 := exec this txs (step this s (env, RequestBatchDecryption b)) in
  batchId (rdC (decryptionContexts s2) requestId) = b /\
  commitment this s2 b = stateHash (rdC (decryptionContexts s2) requestId) /\
  (forall t, transact this env' (MyCallback requestId c p) s2 <> Failure StateMismatch t).
Proof.
  intros Hreach Hle Hok requestId s2.
  destruct (request_success s env b Hok) as (Hclosed & Hstored & Hcb & Hib & Hcu & Hla).
  set (s1 := step this s (env, RequestBatchDecryption b)) in *.
  assert (Hreach1 : reachable this s1) by by constructor.
  destruct (context_kept_exec txs s1 requestId _ Hreach1 Hstored)
    as (ctx2 & Hstored2 & Hb2 & Hh2). simpl in Hb2, Hh2.
  destruct (closed_exec this txs s1 b) as (_ & _ & Hcu2 & Hla2).
  { rewrite Hcb. done. }
  { rewrite Hib. done. }
  fold s2 in Hstored2, Hcu2, Hla2.
  assert (Hctx : rdC (decryptionContexts s2) requestId = ctx2)
    by (unfold rdC; by rewrite Hstored2).
  assert (Hsame : commitment this s2 b = stateHash ctx2).
  { rewrite Hh2. unfold commitment. by rewrite Hcu2, Hla2, Hcu, Hla. }
  rewrite Hctx. split; [done|]. split; [done|].
  intros t. rewrite myCallback_outcome, Hctx, Hb2.
  unfold commitment in Hsame. rewrite Hsame, Z.eqb_refl. simpl.
  by repeat case_match.
Qed.


End Requests.

Section Log.

Context `{FHELib}.
Variable this : Z.

Lemma completions_snoc id evs e :
  completions id (evs ++ [e])
    = (completions id evs + if is_completion id e then 1 else 0)%nat.
Proof.
  induction evs as [|e' evs IH]; simpl; [lia|]. rewrite IH. lia.
Qed.

Lemma log_ok_constructor deployer : log_ok (constructor deployer).
Proof.
  split; simpl.
  - intros id. unfold rdC. by rewrite lookup_empty.
  - intros id b u l [Hin|[]]. discriminate.
Qed.

Lemma completions_in id b u l evs :
  In (DecryptionCompleted id b u l) evs -> (1 <= completions id evs)%nat.
Proof.
  induction evs as [|e evs IH]; [done|]. intros [->|Hin]; simpl.
  - rewrite Z.eqb_refl. lia.
  - apply IH in Hin. lia.
Qed.

Lemma log_ok_step s ec : invariant s -> log_ok s -> log_ok (step this s ec).
Proof.
  intros Hinv [Hcount Hbatch]. destruct ec as [env c].
  pose proof (inv_unissued s Hinv (counterRequest s)) as Hfresh.
  step_cases s c; try (by split).
  all: split;
    cbn [events decryptionContexts];
    [ intros id; rewrite completions_snoc, Hcount; cbn [is_completion]
    | intros id b u l [Hin|Hin]%in_app_or;
      [pose proof (Hbatch _ _ _ _ Hin) as Hb; apply completions_in in Hin;
       rewrite Hcount in Hin
      | destruct Hin as [Hin|[]]; simplify_eq] ];
    rewrite ?rdC_insert; repeat case_decide; subst; try done; try lia.
  - (* requestBatchDecryption: the new id had no context *)
    rewrite rdC_absent; [done|]. apply Hfresh. lia.
  - (* requestBatchDecryption: no old event is about the new id *)
    rewrite rdC_absent in Hin; [simpl in Hin; lia|]. apply Hfresh. lia.
  - (* myCallback: the first completion of this request *)
    rewrite Z.eqb_refl.
    match goal with Hp : processed _ = false |- _ => rewrite Hp end. simpl. lia.
  - (* myCallback: another request *)
    match goal with Hne : _ <> _ |- _ => apply Z.eqb_neq in Hne; rewrite Hne end. lia.
Qed.

(** X14. The event log tells which requests are resolved: in a reachable
    state it holds exactly one [DecryptionCompleted] event for every
    request whose context is processed and none for any other request id,
    and each such event carries the batch id stored for its request. *)
Theorem completions_match_processed s requestId :
  reachable this s ->
  completions requestId (events s)
    = (if processed (rdC (decryptionContexts s) requestId) then 1%nat else 0%nat) /\
  (forall b u l, In (DecryptionCompleted requestId b u l) (events s) ->
     batchId (rdC (decryptionContexts s) requestId) = b).
Proof.
  intros Hreach.
  assert (Hlog : log_ok s).
  { induction Hreach as [d _|s ec Hreach IH].
    - apply log_ok_constructor.
    - apply log_ok_step; [by apply reachable_invariant with this|done]. }
  split; [apply (log_count s Hlog)|]. intros b u l. apply (log_batch s Hlog).
Qed.

End Log.

Section Cooldown.

Context `{FHELib}.
Variable this : Z.

Lemma cooldown_sets_cons ec txs s :
  cooldown_sets this (ec :: txs) s =
    match ec.2 with
    | SetCooldownSeconds _ =>
      if succeeds this s ec then S (cooldown_sets this txs (step this s ec))
      else cooldown_sets this txs (step this s ec)
    | _ => cooldown_sets this txs (step this s ec)
    end.
Proof. reflexivity. Qed.

(** One transaction that is no successful [setCooldownSeconds] keeps the
    cooldown, and the last submission time of [p] does not go back: a
    submission of [p] that succeeds comes after the cooldown. *)
Lemma clock_step s ec p T :
  0 <= cooldownSeconds s ->
  T <= rdZ (lastSubmissionTime s) p ->
  match ec.2 with
  | SetCooldownSeconds _ => succeeds this s ec = false
  | _ => True
  end ->
  cooldownSeconds (step this s ec) = cooldownSeconds s /\
  T <= rdZ (lastSubmissionTime (step this s ec)) p.
Proof.
  destruct ec as [env c]. cbn [snd]. intros Hcd HT Hc.
  destruct (succeeds this s (env, c)) eqn:Hok; [|by rewrite step_failed].
  clear Hok. revert Hc. step_cases s c; intros Hc; try done.
  all: split; [done|]; rewrite rdZ_insert; case_decide; [subst|done].
  all: match goal with
       | Hnow : (block_timestamp _ <? _) = false |- _ => apply Z.ltb_ge in Hnow
       end; lia.
Qed.

(** X15. A provider cannot submit twice within the cooldown: after a
    successful submission at time [T], under a cooldown that is not
    negative, every submission of the same sender at a time below
    [T + cooldownSeconds] fails, whatever is called in between, failed and
    successful submissions of that sender and failed [setCooldownSeconds]
    calls included, as long as no [setCooldownSeconds] call succeeds; it
    fails with [CooldownActive] when the sender is still a provider, the
    contract is not paused and the sender's last submission time plus the
    cooldown does not overflow. *)
Theorem cooldown_blocks_resubmission s env b u l txs env' b' u' l' :
  succeeds this s (env, SubmitEncryptedComputeResource b u l) = true ->
  0 <= cooldownSeconds s ->
  cooldown_sets this txs (step this s (env, SubmitEncryptedComputeResource b u l)) = O ->
  msg_sender env' = msg_sender env ->
  block_timestamp env' < block_timestamp env + cooldownSeconds s ->
  let s2 := exec this txs (step this s (env, SubmitEncryptedComputeResource b u l)) in
  succeeds this s2 (env', SubmitEncryptedComputeResource b' u' l') = false /\
  (rdB (isProvider s2) (msg_sender env') = true ->
   paused s2 = false ->
   rdZ (lastSubmissionTime s2) (msg_sender env') + cooldownSeconds s2 <= MAX_UINT256 ->
   transact this env' (SubmitEncryptedComputeResource b' u' l') s2
     = Failure CooldownActive []).
Proof.
  intros Hok Hcd Hsets Hsender Hearly s2.
  set (s1 := step this s (env, SubmitEncryptedComputeResource b u l)) in *.
  assert (Hs1 : cooldownSeconds s1 = cooldownSeconds s /\
                block_timestamp env <= rdZ (lastSubmissionTime s1) (msg_sender env)).
  { unfold s1. revert Hok. unfold succeeds, step. cbn [fst snd].
    rewrite submit_outcome.
    destruct s as [o ip p cd ls ld cb ib cu la dc cr ev].
    repeat case_match; simplify_eq; try done. intros _.
    cbn [apply_write log_event lastSubmissionTime cooldownSeconds].
    rewrite rdZ_insert, decide_True by done. split; [done|lia]. }
  assert (Hs2 : cooldownSeconds s2 = cooldownSeconds s /\
                block_timestamp env <= rdZ (lastSubmissionTime s2) (msg_sender env)).
  { subst s2. clearbody s1. clear Hok. revert s1 Hs1 Hsets.
    induction txs as [|ec txs IH]; intros s1 [Hcd1 HT1] Hsets; [done|].
    rewrite exec_cons. rewrite cooldown_sets_cons in Hsets.
    assert (Hec : match ec.2 with
                  | SetCooldownSeconds _ => succeeds this s1 ec = false
                  | _ => True
                  end).
    { destruct ec as [env0 c]. destruct c; try done. cbn [snd] in Hsets |- *.
      by destruct (succeeds this s1 _). }
    destruct (clock_step s1 ec (msg_sender env) (block_timestamp env))
      as [Hcd2 HT2]; [lia|done|done|].
    apply IH; [split; [congruence|done]|].
    destruct ec as [env0 c]. destruct c; try done. cbn [snd] in Hsets.
    by destruct (succeeds this s1 _). }
  destruct Hs2 as [Hcd2 HT2].
  pose proof (submit_outcome this s2 env' b' u' l') as Hout. simpl in Hout.
  rewrite Hsender in Hout.
  split.
  - unfold succeeds. cbn [fst snd]. rewrite Hout.
    destruct (Z.ltb_spec (block_timestamp env')
                (rdZ (lastSubmissionTime s2) (msg_sender env) + cooldownSeconds s2));
      [|lia].
    by repeat case_match.
  - intros Hprov Hrunning Hfits. rewrite Hout.
    rewrite Hsender in Hprov, Hfits. rewrite Hprov, Hrunning. simpl.
    destruct (Z.ltb_spec MAX_UINT256
                (rdZ (lastSubmissionTime s2) (msg_sender env) + cooldownSeconds s2));
      [lia|].
    destruct (Z.ltb_spec (block_timestamp env')
                (rdZ (lastSubmissionTime s2) (msg_sender env) + cooldownSeconds s2));
      [done|lia].
Qed.

End Cooldown.

Section Fold.

Context `{FHELib}.
Variable this : Z.

Lemma fold_exec b txs : forall s,
  rdZ (batchTotalEncryptedComputeUnits (exec this txs s)) b
    = fold_handles (rdZ (batchTotalEncryptedComputeUnits s) b)
        (map fst (submissions this b txs s)) /\
  rdZ (batchTotalEncryptedLendAmounts (exec this txs s)) b
    = fold_handles (rdZ (batchTotalEncryptedLendAmounts s) b)
        (map snd (submissions this b txs s)).
Proof.
  induction txs as [|ec txs IH]; intros s; [done|].
  rewrite exec_cons, submissions_cons.
  destruct (IH (step this s ec)) as [-> ->].
  destruct (accumulators_step this s ec b) as [-> ->].
  destruct ec as [env c]. simpl. destruct c; try done.
  by destruct (succeeds this s _ && (batch =? b)).
Qed.

(** X16. After any run from the constructor each accumulator of a batch is
    the handle [FHE.add] gives when the handles submitted to the batch are
    added one after the other, in the order of the submissions, starting
    from the zero word: nothing else enters it and no submission is lost. *)
Theorem accumulator_is_fold deployer txs b :
  let s := exec this txs (constructor deployer) in
  let subs := submissions this b txs (constructor deployer) in
  rdZ (batchTotalEncryptedComputeUnits s) b = fold_handles 0 (map fst subs) /\
  rdZ (batchTotalEncryptedLendAmounts s) b = fold_handles 0 (map snd subs).
Proof.
  intros s subs. destruct (fold_exec b txs (constructor deployer)) as [Hu Hl].
  fold s subs in Hu, Hl. rewrite Hu, Hl. simpl. unfold rdZ. by rewrite lookup_empty.
Qed.

End Fold.


(** ** The frontend's number codec *)

Section CodecFacts.

Context `{Builtins}.

Lemma startsWith_append (p s : string) : startsWith (p ++ s) p = true.
Proof.
  unfold startsWith. induction p as [|c p IH]; simpl; [by destruct s|].
  destruct (ascii_dec c c); [done|congruence].
Qed.

Lemma substring_from_append (p s : string) :
  substring_from (String.length p) (p ++ s) = s.
Proof. induction p as [|c p IH]; simpl; [done|exact IH]. Qed.

Lemma first_part_append (x y : string) :
  has_dash x = false -> first_part (x ++ String "-" y) = x.
Proof.
  induction x as [|c x IH]; simpl; [done|].
  destruct (Ascii.eqb c "-"); simpl; [done|]. intros Hx. by rewrite IH.
Qed.

(** What [FHEDecryptNumber] reads of a string made by [FHEEncryptNumber]:
    the part between the prefix and the dash. *)
Lemma decrypt_of_encrypt value now :
  has_dash (btoa (toString value)) = false ->
  FHEDecryptNumber (FHEEncryptNumber value now)
    = option_map parseFloat (atob (btoa (toString value))).
Proof.
  intros Hdash. unfold FHEDecryptNumber, FHEEncryptNumber.
  rewrite startsWith_append.
  change 4%nat with (String.length "FHE-").
  rewrite substring_from_append.
  change (btoa (toString value) ++ "-" ++ toString now)%string
    with (btoa (toString value) ++ String "-" (toString now))%string.
  rewrite first_part_append by done.
  by destruct (atob (btoa (toString value))).
Qed.

(** X17. Decrypting what [FHEEncryptNumber] made gives the number back,
    whatever the clock read: for a number whose decimal string survives
    [btoa] and [atob], whose base64 holds no dash and which [parseFloat]
    reads back from its string. *)
Theorem codec_round_trip value now :
  has_dash (btoa (toString value)) = false ->
  atob (btoa (toString value)) = Some (toString value) ->
  parseFloat (toString value) = value ->
  FHEDecryptNumber (FHEEncryptNumber value now) = Some value.
Proof.
  intros Hdash Hbase64 Hparse.
  rewrite decrypt_of_encrypt by done. rewrite Hbase64. simpl. by rewrite Hparse.
Qed.

(** X18. [FHECompute] works on the cleartext.  Given an encrypted number
    it returns the encryption of the number times [1.2] for the operation
    "scaleUp20%", of the number times [0.9] for "scaleDown10%", of the
    number times [1.15] for "optimizePerformance", and of the number itself
    for any other operation name; the result carries the clock reading of
    the call. *)
Theorem compute_scales_cleartext value now now' :
  has_dash (btoa (toString value)) = false ->
  atob (btoa (toString value)) = Some (toString value) ->
  parseFloat (toString value) = value ->
  FHECompute (FHEEncryptNumber value now) "scaleUp20%" now'
    = Some (FHEEncryptNumber (times value lit_1_2) now') /\
  FHECompute (FHEEncryptNumber value now) "scaleDown10%" now'
    = Some (FHEEncryptNumber (times value lit_0_9) now') /\
  FHECompute (FHEEncryptNumber value now) "optimizePerformance" now'
    = Some (FHEEncryptNumber (times value lit_1_15) now') /\
  (forall operation : string,
     operation <> "scaleUp20%"%string ->
     operation <> "scaleDown10%"%string ->
     operation <> "optimizePerformance"%string ->
     FHECompute (FHEEncryptNumber value now) operation now'
       = Some (FHEEncryptNumber value now')).
Proof.
  intros Hdash Hbase64 Hparse.
  assert (Hvalue : FHEDecryptNumber (FHEEncryptNumber value now) = Some value).
  { rewrite decrypt_of_encrypt by done. rewrite Hbase64. simpl. by rewrite Hparse. }
  unfold FHECompute. rewrite Hvalue. repeat split.
  intros operation H1 H2 H3. unfold scaled.
  apply String.eqb_neq in H1, H2, H3. by rewrite H1, H2, H3.
Qed.

End CodecFacts.


(** ** The further properties at work on the toy library *)

(** A stranger can neither open a batch nor submit. *)
Lemma only_owner_administers_witness :
  Toy.tx (Toy.at_time 7 10) OpenBatch (constructor 1) = Failure NotOwner [] /\
  Toy.after (constructor 1)
    (Toy.at_time 7 10, SubmitEncryptedComputeResource 1 (Toy.encrypt 1) (Toy.encrypt 1))
    = constructor 1.
Proof.
  destruct (@only_owner_administers Toy.lib Toy.this (constructor 1)
              (Toy.at_time 7 10) OpenBatch) as [Hadmin _]; [vm_compute; discriminate|].
  destruct (@only_owner_administers Toy.lib Toy.this (constructor 1) (Toy.at_time 7 10)
              (SubmitEncryptedComputeResource 1 (Toy.encrypt 1) (Toy.encrypt 1)))
    as [_ Hother]; [vm_compute; discriminate|].
  split; [apply Hadmin; reflexivity|]. apply Hother; [reflexivity|discriminate].
Defined.

(** Adding provider 2 twice: the second call does nothing. *)
Lemma addProvider_idempotent_witness :
  let s1 := Toy.after (constructor 1) (Toy.at_time 1 10, AddProvider 2) in
  rdB (isProvider s1) 2 = true /\
  Toy.tx (Toy.at_time 1 11) (AddProvider 2) s1 = Success s1 [].
Proof.
  destruct (@addProvider_idempotent Toy.lib Toy.this (constructor 1)
              (Toy.at_time 1 10) (Toy.at_time 1 11) 2) as (_ & Hp & _ & _ & Hagain);
    [reflexivity|reflexivity|].
  split; [exact Hp|exact Hagain].
Defined.

(** Removing provider 2 after the scenario, twice. *)
Lemma removeProvider_idempotent_witness :
  let s := Toy.run Toy.scenario (constructor 1) in
  let s1 := Toy.after s (Toy.at_time 1 20, RemoveProvider 2) in
  rdB (isProvider s) 2 = true /\
  rdB (isProvider s1) 2 = false /\
  rdB (isProvider s1) 3 = true /\
  Toy.tx (Toy.at_time 1 21) (RemoveProvider 2) s1 = Success s1 [].
Proof.
  intros s s1.
  destruct (@removeProvider_idempotent Toy.lib Toy.this s
              (Toy.at_time 1 20) (Toy.at_time 1 21) 2) as (_ & Hp & Hothers & _ & Hagain);
    [reflexivity|reflexivity|].
  split; [reflexivity|]. split; [exact Hp|]. split; [|exact Hagain].
  unfold s1, Toy.after. rewrite Hothers; [reflexivity|discriminate].
Defined.


(** After the pause of the scenario, attempts to open a batch and to
    submit leave the batch counter and the totals where they were. *)
Lemma pause_freezes_batches_witness :
  let s := Toy.run Toy.paused_scenario (constructor 1) in
  let s' := Toy.run [(Toy.at_time 1 20, OpenBatch);
                     (Toy.at_time 2 21,
                      SubmitEncryptedComputeResource 1 (Toy.encrypt 1) (Toy.encrypt 1));
                     (Toy.at_time 1 22, SetPaused true)] s in
  paused s' = true /\
  currentBatchId s' = 1 /\
  batchTotalEncryptedComputeUnits s' = batchTotalEncryptedComputeUnits s.
Proof.
  intros s s'.
  destruct (@pause_freezes_batches Toy.lib Toy.this s
              [(Toy.at_time 1 20, OpenBatch);
               (Toy.at_time 2 21,
                SubmitEncryptedComputeResource 1 (Toy.encrypt 1) (Toy.encrypt 1));
               (Toy.at_time 1 22, SetPaused true)])
    as (Hp & Hcb & Hcu & _).
  - reflexivity.
  - repeat constructor; discriminate.
  - split; [exact Hp|]. split; [|exact Hcu]. unfold s', Toy.run. rewrite Hcb. reflexivity.
Defined.

(** Batch 1 is open when the contract is paused; the owner closes it. *)
Lemma paused_owner_can_close_witness :
  let s := Toy.run [(Toy.at_time 1 10, OpenBatch); (Toy.at_time 1 11, SetPaused true)]
             (constructor 1) in
  Toy.tx (Toy.at_time 1 12) OpenBatch s = Failure Paused [] /\
  Toy.ok s (Toy.at_time 1 12, CloseBatch 1) = true /\
  rdB (isBatchOpen (Toy.after s (Toy.at_time 1 12, CloseBatch 1))) 1 = false.
Proof.
  intros s.
  destruct (@paused_owner_can_close Toy.lib Toy.this s (Toy.at_time 1 12) 1)
    as [Hopen Hclose]; [reflexivity|reflexivity|].
  destruct Hclose as (Hok & Hflag & _); [reflexivity|].
  split; [exact Hopen|]. split; [exact Hok|exact Hflag].
Defined.

(** The scenario opens one batch. *)
Lemma batch_ids_sequential_witness :
  currentBatchId (Toy.run Toy.scenario (constructor 1)) = 1.
Proof.
  destruct (@batch_ids_sequential Toy.lib Toy.this 1 Toy.scenario) as [Hcb _].
  unfold Toy.run. rewrite Hcb. reflexivity.
Defined.

(** Right after deployment nothing can be submitted to batch 0 or batch 1,
    even by a provider. *)
Lemma unallocated_batch_rejects_witness :
  let s := Toy.run [(Toy.at_time 1 10, AddProvider 2)] (constructor 1) in
  Toy.ok s (Toy.at_time 2 11,
            SubmitEncryptedComputeResource 0 (Toy.encrypt 1) (Toy.encrypt 1)) = false /\
  Toy.ok s (Toy.at_time 1 11, CloseBatch 1) = false.
Proof.
  intros s.
  destruct (@unallocated_batch_rejects Toy.lib Toy.this s (Toy.at_time 2 11) 0
              (Toy.encrypt 1) (Toy.encrypt 1)) as (_ & _ & _ & Hsubmit & _).
  { apply reachable_exec. constructor. lia. }
  { left. lia. }
  destruct (@unallocated_batch_rejects Toy.lib Toy.this s (Toy.at_time 1 11) 1
              (Toy.encrypt 1) (Toy.encrypt 1)) as (_ & _ & _ & _ & Hclose).
  { apply reachable_exec. constructor. lia. }
  { right. vm_compute. reflexivity. }
  split; [exact Hsubmit|exact Hclose].
Defined.

(** The scenario submits to batch 1 only; batch 2 keeps its zeros. *)
Lemma accumulators_change_only_by_submissions_witness :
  rdZ (batchTotalEncryptedComputeUnits (Toy.run Toy.scenario (constructor 1))) 2 = 0 /\
  rdZ (batchTotalEncryptedLendAmounts (Toy.run Toy.scenario (constructor 1))) 2 = 0.
Proof.
  destruct (@accumulators_change_only_by_submissions Toy.lib Toy.this 2 Toy.scenario
              (constructor 1)) as [Hu Hl]; [reflexivity|].
  split.
  - unfold Toy.run. rewrite Hu. reflexivity.
  - unfold Toy.run. rewrite Hl. reflexivity.
Defined.

(** In the scenario batch 1 has data and batch 2 has none. *)
Lemma zero_accumulator_iff_no_submission_witness :
  rdZ (batchTotalEncryptedComputeUnits (Toy.run Toy.scenario (constructor 1))) 1 <> 0 /\
  rdZ (batchTotalEncryptedComputeUnits (Toy.run Toy.scenario (constructor 1))) 2 = 0.
Proof.
  destruct (@zero_accumulator_iff_no_submission Toy.lib Toy.this 1 Toy.scenario 1
              toy_nonzero_handles) as [Hone _].
  destruct (@zero_accumulator_iff_no_submission Toy.lib Toy.this 1 Toy.scenario 2
              toy_nonzero_handles) as [Htwo _].
  split.
  - intros Hz. apply Hone in Hz. vm_compute in Hz. discriminate.
  - apply Htwo. reflexivity.
Defined.

(** Batch 1 is closed after one submission; a later submission fails and
    the total stays. *)
Lemma closed_batch_is_frozen_witness :
  let s := Toy.run [(Toy.at_time 1 10, AddProvider 2); (Toy.at_time 1 11, OpenBatch);
                    (Toy.at_time 2 12,
                     SubmitEncryptedComputeResource 1 (Toy.encrypt 10) (Toy.encrypt 5))]
             (constructor 1) in
  let s2 := Toy.run [(Toy.at_time 1 14, OpenBatch)]
              (Toy.after s (Toy.at_time 1 13, CloseBatch 1)) in
  Toy.ok s2 (Toy.at_time 2 15,
             SubmitEncryptedComputeResource 1 (Toy.encrypt 7) (Toy.encrypt 3)) = false /\
  rdZ (batchTotalEncryptedComputeUnits s2) 1 = Toy.encrypt 10.
Proof.
  intros s s2.
  destruct (@closed_batch_is_frozen Toy.lib Toy.this s (Toy.at_time 1 13) 1
              [(Toy.at_time 1 14, OpenBatch)] (Toy.at_time 2 15)
              (Toy.encrypt 7) (Toy.encrypt 3)) as (_ & Hfail & Hu & _).
  - apply reachable_exec. constructor. lia.
  - reflexivity.
  - split; [exact Hfail|]. unfold s2, Toy.run, Toy.after. rewrite Hu. reflexivity.
Defined.

(** The request of the scenario, made for batch 1 closed with two
    submissions in it: after a second batch has been opened and has taken
    a submission, the stored commitment is still the hash of the
    accumulators of batch 1, the callback passes the comparison and
    succeeds. *)
Lemma no_mismatch_after_close_witness :
  let s := Toy.run (take 6 Toy.scenario) (constructor 1) in
  let s2 := Toy.run [(Toy.at_time 1 16, OpenBatch);
                     (Toy.at_time 2 17,
                      SubmitEncryptedComputeResource 2 (Toy.encrypt 4) (Toy.encrypt 4))]
              (Toy.after s (Toy.at_time 1 15, RequestBatchDecryption 1)) in
  rdZ (batchTotalEncryptedComputeUnits s2) 1 <> 0 /\
  batchId (rdC (decryptionContexts s2) 0) = 1 /\
  @commitment Toy.lib Toy.this s2 1 = stateHash (rdC (decryptionContexts s2) 0) /\
  Toy.tx (Toy.at_time 9 20) (MyCallback 0 Toy.payload Toy.good_proof) s2
    <> Failure StateMismatch
         [ECall (L_keccak256
            (abi_encode [rdZ (batchTotalEncryptedComputeUnits s2) 1;
                         rdZ (batchTotalEncryptedLendAmounts s2) 1] Toy.this))] /\
  Toy.ok s2 (Toy.at_time 9 20, MyCallback 0 Toy.payload Toy.good_proof) = true.
Proof.
  intros s s2.
  destruct (@no_mismatch_after_close Toy.lib Toy.this s (Toy.at_time 1 15) 1
              [(Toy.at_time 1 16, OpenBatch);
               (Toy.at_time 2 17,
                SubmitEncryptedComputeResource 2 (Toy.encrypt 4) (Toy.encrypt 4))]
              (Toy.at_time 9 20) Toy.payload Toy.good_proof)
    as (Hbatch & Hsame & Hnever).
  - apply reachable_exec. constructor. lia.
  - vm_compute. discriminate.
  - reflexivity.
  - split; [vm_compute; discriminate|]. split; [exact Hbatch|].
    split; [exact Hsame|]. split; [apply Hnever|]. vm_compute. reflexivity.
Defined.


(** After the scenario is resolved the log holds one completion for
    request 0 and none for request 1. *)
Lemma completions_match_processed_witness :
  let s := Toy.after (Toy.run Toy.scenario (constructor 1))
             (Toy.at_time 9 20, MyCallback 0 Toy.payload Toy.good_proof) in
  completions 0 (events s) = 1%nat /\ completions 1 (events s) = 0%nat.
Proof.
  intros s.
  assert (Hreach : Toy.can_reach s).
  { apply reachable_step, reachable_exec. constructor. lia. }
  destruct (@completions_match_processed Toy.lib Toy.this s 0 Hreach) as [Hzero _].
  destruct (@completions_match_processed Toy.lib Toy.this s 1 Hreach) as [Hone _].
  split.
  - rewrite Hzero. reflexivity.
  - rewrite Hone. reflexivity.
Defined.

(** Under the cooldown of 100 seconds the owner's submission 48 seconds
    after the first fails, although in between a batch was opened, the
    owner retried in vain and a stranger tried to lift the cooldown. *)
Lemma cooldown_blocks_resubmission_witness :
  let s := Toy.run (take 3 Toy.cooling_down) (constructor 1) in
  let s1 := Toy.after s (Toy.at_time 1 1002,
              SubmitEncryptedComputeResource 1 (Toy.encrypt 10) (Toy.encrypt 5)) in
  let between :=
    [ (Toy.at_time 1 1003, OpenBatch);
      (Toy.at_time 1 1010,
       SubmitEncryptedComputeResource 1 (Toy.encrypt 2) (Toy.encrypt 2));
      (Toy.at_time 7 1011, SetCooldownSeconds 0) ] in
  Toy.tx (Toy.at_time 1 1050)
    (SubmitEncryptedComputeResource 2 (Toy.encrypt 1) (Toy.encrypt 1))
    (Toy.run between s1)
  = Failure CooldownActive [].
Proof.
  intros s s1 between.
  destruct (@cooldown_blocks_resubmission Toy.lib Toy.this s (Toy.at_time 1 1002) 1
              (Toy.encrypt 10) (Toy.encrypt 5) between
              (Toy.at_time 1 1050) 2 (Toy.encrypt 1) (Toy.encrypt 1)) as [_ Herror].
  - reflexivity.
  - vm_compute. discriminate.
  - reflexivity.
  - reflexivity.
  - reflexivity.
  - apply Herror; [reflexivity|reflexivity|vm_compute; discriminate].
Defined.

(** In the scenario the compute-unit total is the handle of 7 added onto
    the handle of 10 added onto the zero word. *)
Lemma accumulator_is_fold_witness :
  rdZ (batchTotalEncryptedComputeUnits (Toy.run Toy.scenario (constructor 1))) 1
    = @FHE_add Toy.lib (Toy.encrypt 7)
        (@FHE_asEuint32 Toy.lib
           (@FHE_add Toy.lib (Toy.encrypt 10) (@FHE_asEuint32 Toy.lib 0))).
Proof.
  destruct (@accumulator_is_fold Toy.lib Toy.this 1 Toy.scenario 1) as [Hu _].
  unfold Toy.run. rewrite Hu. reflexivity.
Defined.

(** In a browser, 17 at the clock reading 1700000000000 is encrypted as
    "FHE-MTc=-1700000000000" and read back as 17. *)
Lemma codec_round_trip_witness :
  Browser.of_Z 17 = Browser.Finite false (17 * 2 ^ 48) (-48) /\
  @FHEEncryptNumber Browser.builtins (Browser.of_Z 17) (Browser.of_Z 1700000000000)
    = "FHE-MTc=-1700000000000"%string /\
  @FHEDecryptNumber Browser.builtins "FHE-MTc=-1700000000000" = Some (Browser.of_Z 17).
Proof.
  split; [vm_compute; reflexivity|]. split; [vm_compute; reflexivity|].
  apply (@codec_round_trip Browser.builtins (Browser.of_Z 17)
           (Browser.of_Z 1700000000000)); vm_compute; reflexivity.
Defined.

(** In a browser, the encrypted 17 scaled up is the encrypted 20.4, scaled
    down the encrypted 15.3, optimized the encrypted 19.549999999999997,
    and under an unknown operation the encrypted 17. *)
Lemma compute_scales_cleartext_witness :
  let compute operation :=
    @FHECompute Browser.builtins "FHE-MTc=-1700000000000" operation
      (Browser.of_Z 1700000000001) in
  @toString Browser.builtins (@lit_1_2 Browser.builtins) = "1.2"%string /\
  @toString Browser.builtins (@lit_0_9 Browser.builtins) = "0.9"%string /\
  @toString Browser.builtins (@lit_1_15 Browser.builtins) = "1.15"%string /\
  @atob Browser.builtins "MjAuNA==" = Some "20.4"%string /\
  @atob Browser.builtins "MTUuMw==" = Some "15.3"%string /\
  @atob Browser.builtins "MTkuNTQ5OTk5OTk5OTk5OTk3" = Some "19.549999999999997"%string /\
  compute "scaleUp20%"%string = Some "FHE-MjAuNA==-1700000000001"%string /\
  compute "scaleDown10%"%string = Some "FHE-MTUuMw==-1700000000001"%string /\
  compute "optimizePerformance"%string
    = Some "FHE-MTkuNTQ5OTk5OTk5OTk5OTk3-1700000000001"%string /\
  compute "noop"%string = Some "FHE-MTc=-1700000000001"%string.
Proof.
  destruct (@compute_scales_cleartext Browser.builtins (Browser.of_Z 17)
              (Browser.of_Z 1700000000000) (Browser.of_Z 1700000000001))
    as (Hup & Hdown & Hoptimize & Hother); [vm_compute; reflexivity ..|].
  specialize (Hother "noop"%string).
  cbv zeta. do 6 (split; [vm_compute; reflexivity|]).
  split; [vm_compute in Hup |- *; exact Hup|].
  split; [vm_compute in Hdown |- *; exact Hdown|].
  split; [vm_compute in Hoptimize |- *; exact Hoptimize|].
  vm_compute in Hother |- *. apply Hother; discriminate.
Defined.
